(** * Bluetooth trilateration simulator: the propagation model and the solver

    A shallow embedding of the core algorithms of [App.tsx]
    ([calculateRSSI], [estimateDistanceFromRSSI], [findWallIntersections],
    [performTrilateration], with the helpers [clamp] and [distance]) and the
    properties the specification states about them.

    The program computes with JavaScript numbers.  The algorithms are written
    once, over an interface of the arithmetic the source uses ([Arith], and
    [Libm] for the transcendental functions of [Math]), and read at two
    instances:

    - [float], IEEE 754 binary64 with the kernel's primitive operations: what
      the program computes, bit for bit, for [+ - * /], [Math.sqrt],
      [Math.abs] and the comparisons.  The values of [Math.log10],
      [Math.log], [Math.cos] and [Math.pow] are left to the engine
      ([F64.Engine]), except at the arguments where the language standard
      fixes them;
    - [R], the real numbers: the same program in exact arithmetic, where the
      analytic statements of the specification (the log-distance law, the
      bound on the cosine) are read.  A quotient by 0 has no meaning there,
      and the statements at this instance exclude it.

    Conventions of the embedding:

    - [v ** 2] and [Math.pow(v, 2)] are the product [v * v];
    - the two results of [Math.random()] are arguments of [calculateRSSI];
    - the state of the component that the functions read ([txPower],
      [pathLossExponent], the [enable...] flags, [noiseStdDev], [walls]) is
      passed as a [Config] and a list of walls;
    - the [for] loop of the solver is a recursion on the number of turns
      left, and each turn ends in one of the four ways of [Step];
    - where the specification words a mechanism that the program does not
      have (the guard for a zero-length signal vector), the model with the
      mechanism is written beside the program ([guardedCalculateRSSI]) and
      the two are compared.

    The second part embeds the scene around these algorithms: the update of
    the measurements and of the estimate ([updateScene]), the placement of
    the radios ([initializeRadios]), [canvasToThree], the device sliders
    ([handleDevicePosChange]) and the mouse handlers.  There the results of
    [Math.random()] are a sequence read through a call counter, the results
    of [generateId()] and the object found by the ray caster are arguments,
    and the state of the component that the handlers read and set is a
    [Scene]. *)

From Stdlib Require Import ZArith List Bool String Lia.
From Stdlib Require Import DecimalString.
From Stdlib Require Import Floats.
From Stdlib Require Import Reals Lra Psatz.
Import ListNotations.

Set Warnings "-inexact-float".

(** ** The numbers of the program *)

(** The operations of JavaScript numbers that the geometry and the solver
    use.  [dec m k] is the decimal literal [m / 10^k] ([dec 5 1] is [0.5],
    [dec 1 6] is [1e-6]); [ofIndex i] is an array index used as a number. *)
Class Arith (num : Type) : Type := {
  dec : Z -> nat -> num;
  ofIndex : nat -> num;
  num_add : num -> num -> num;
  num_sub : num -> num -> num;
  num_mul : num -> num -> num;
  num_div : num -> num -> num;
  num_neg : num -> num;
  num_lt : num -> num -> bool;
  num_le : num -> num -> bool;
  num_eq : num -> num -> bool;
  Math_sqrt : num -> num;
  Math_abs : num -> num;
  Math_min : num -> num -> num;
  Math_max : num -> num -> num
}.

(** The transcendental functions of [Math] that the propagation model
    uses. *)
Class Libm (num : Type) : Type := {
  Math_log10 : num -> num;
  Math_log : num -> num;
  Math_cos : num -> num;
  Math_pow : num -> num -> num;
  Math_PI : num
}.

Declare Scope num_scope.
Delimit Scope num_scope with num.
Notation "a + b" := (num_add a b) : num_scope.
Notation "a - b" := (num_sub a b) : num_scope.
Notation "a * b" := (num_mul a b) : num_scope.
Notation "a / b" := (num_div a b) : num_scope.
Notation "- a" := (num_neg a) : num_scope.
Notation "a <? b" := (num_lt a b) : num_scope.
Notation "a >? b" := (num_lt b a) : num_scope.
Notation "a <=? b" := (num_le a b) : num_scope.
Notation "a === b" := (num_eq a b) (at level 70, no associativity) : num_scope.

(** *** Binary64 *)

Module F64.

(** An integer as a binary64 number (exact below [2^53]). *)
Definition ofZ (z : Z) : float :=
  match z with
  | Z0 => PrimFloat.zero
  | Zpos _ => PrimFloat.of_uint63 (Uint63.of_Z z)
  | Zneg p => PrimFloat.opp (PrimFloat.of_uint63 (Uint63.of_Z (Zpos p)))
  end.

(** A decimal literal with at most 15 digits: both the digits and the power
    of ten are exact, so the one rounding of the division gives the
    binary64 number nearest to the decimal. *)
Definition decimal (m : Z) (k : nat) : float :=
  PrimFloat.div (ofZ m) (ofZ (10 ^ Z.of_nat k)).

(** [Math.max] and [Math.min] of two numbers: [NaN] when either is [NaN],
    and [-0] below [+0]. *)
Definition max (a b : float) : float :=
  if PrimFloat.is_nan a || PrimFloat.is_nan b then PrimFloat.nan
  else if PrimFloat.ltb a b then b
  else if PrimFloat.ltb b a then a
  else if PrimFloat.get_sign a then b else a.

Definition min (a b : float) : float :=
  if PrimFloat.is_nan a || PrimFloat.is_nan b then PrimFloat.nan
  else if PrimFloat.ltb a b then a
  else if PrimFloat.ltb b a then b
  else if PrimFloat.get_sign a then a else b.

#[global] Instance arith : Arith float := {
  dec := decimal;
  ofIndex i := ofZ (Z.of_nat i);
  num_add := PrimFloat.add;
  num_sub := PrimFloat.sub;
  num_mul := PrimFloat.mul;
  num_div := PrimFloat.div;
  num_neg := PrimFloat.opp;
  num_lt := PrimFloat.ltb;
  num_le := PrimFloat.leb;
  num_eq := PrimFloat.eqb;
  Math_sqrt := PrimFloat.sqrt;
  Math_abs := PrimFloat.abs;
  Math_min := min;
  Math_max := max
}.

(** The engine's approximations of the transcendental functions: the
    language standard leaves their values to the implementation, except at
    the arguments listed below. *)
Record Engine : Type := {
  engine_log10 : float -> float;
  engine_log : float -> float;
  engine_cos : float -> float;
  engine_pow : float -> float -> float
}.

(** [Math.log] and [Math.log10]: [NaN] and [+Infinity] are returned as they
    are, [1] gives [+0], a zero gives [-Infinity], a negative number gives
    [NaN]. *)
Definition logarithm (approx : float -> float) (v : float) : float :=
  if PrimFloat.is_nan v then PrimFloat.nan
  else if PrimFloat.eqb v PrimFloat.infinity then PrimFloat.infinity
  else if PrimFloat.eqb v PrimFloat.one then PrimFloat.zero
  else if PrimFloat.is_zero v then PrimFloat.neg_infinity
  else if PrimFloat.ltb v PrimFloat.zero then PrimFloat.nan
  else approx v.

(** [Math.cos]: [NaN] when the argument is not finite, [1] at a zero. *)
Definition cosine (approx : float -> float) (v : float) : float :=
  if negb (PrimFloat.is_finite v) then PrimFloat.nan
  else if PrimFloat.is_zero v then PrimFloat.one
  else approx v.

(** [Math.pow]: [NaN] for a [NaN] exponent, [1] for a zero exponent, [NaN]
    for a [NaN] base. *)
Definition power (approx : float -> float -> float) (b e : float) : float :=
  if PrimFloat.is_nan e then PrimFloat.nan
  else if PrimFloat.is_zero e then PrimFloat.one
  else if PrimFloat.is_nan b then PrimFloat.nan
  else approx b e.

Definition libm (E : Engine) : Libm float := {|
  Math_log10 := logarithm (engine_log10 E);
  Math_log := logarithm (engine_log E);
  Math_cos := cosine (engine_cos E);
  Math_pow := power (engine_pow E);
  Math_PI := 0x1.921fb54442d18p+1%float
|}.

End F64.

(** *** Exact arithmetic *)

Module Exact.

Definition ltb (a b : R) : bool := if Rlt_dec a b then true else false.
Definition leb (a b : R) : bool := if Rle_dec a b then true else false.
Definition eqb (a b : R) : bool := if Req_dec_T a b then true else false.

#[global] Instance arith : Arith R := {
  dec m k := (IZR m / 10 ^ k)%R;
  ofIndex := INR;
  num_add := Rplus;
  num_sub := Rminus;
  num_mul := Rmult;
  num_div := Rdiv;
  num_neg := Ropp;
  num_lt := ltb;
  num_le := leb;
  num_eq := eqb;
  Math_sqrt := R_sqrt.sqrt;
  Math_abs := Rabs;
  Math_min := Rmin;
  Math_max := Rmax
}.

#[global] Instance libm : Libm R := {
  Math_log10 v := (ln v / ln 10)%R;
  Math_log := ln;
  Math_cos := Rtrigo_def.cos;
  Math_pow := Rpower;
  Math_PI := PI
}.

End Exact.

(** ** The data model ([types.ts], [constants.ts]) *)

Inductive WallMaterial : Type :=
| drywall | concrete | brick | glass | metal | door_wood | door_metal.

Section Model.

Context {num : Type} {A : Arith num}.
Local Open Scope num_scope.

Record Vector2D : Type := mkVector2D { x : num; y : num }.

Record Wall : Type := mkWall {
  wall_id : string;
  start : Vector2D;
  end_ : Vector2D;
  material : WallMaterial;
  attenuation : num;
  color : Z
}.

(** [Radio] and [Device] extend [Vector2D]: either is passed where a
    [Vector2D] is expected. *)
Record Radio : Type := mkRadio {
  radio_position :> Vector2D;
  id : string;
  radio_radius : num;
  label : string
}.

Record Device : Type := mkDevice {
  device_position :> Vector2D;
  device_radius : num
}.

Record Measurement : Type := mkMeasurement {
  radio : Radio;
  trueDistance : num;
  rssi : num;
  estimatedDistance : num
}.

Record Intersection : Type := mkIntersection {
  point : Vector2D;
  wall : Wall
}.

Definition PIXELS_PER_METER : num := dec 40 0.

(** The attenuation column of [WALL_MATERIALS]. *)
Definition WALL_MATERIALS (m : WallMaterial) : num :=
  match m with
  | drywall => dec 3 0
  | concrete => dec 10 0
  | brick => dec 8 0
  | glass => dec 2 0
  | metal => dec 20 0
  | door_wood => dec 4 0
  | door_metal => dec 12 0
  end.

(** ** Utility functions *)

(** [v ** 2] and [Math.pow(v, 2)]: the square, as the product. *)
Definition square (v : num) : num := v * v.

(** [clamp = (num, min, max) => Math.min(Math.max(num, min), max)] *)
Definition clamp (v lo hi : num) : num := Math_min (Math_max v lo) hi.

(** [distance = (p1, p2) =>
      Math.sqrt(Math.pow(p1.x - p2.x, 2) + Math.pow(p1.y - p2.y, 2))] *)
Definition distance (p1 p2 : Vector2D) : num :=
  Math_sqrt (square (x p1 - x p2) + square (y p1 - y p2)).

(** ** Segment intersection *)

(** The determinant of the two parametric line equations, and the
    parameters [t] (along the path) and [u] (along the wall), as the loop
    body of [findWallIntersections] computes them for one wall. *)
Definition den (p1 p2 : Vector2D) (w : Wall) : num :=
  let p3 := start w in
  let p4 := end_ w in
  (x p1 - x p2) * (y p3 - y p4) - (y p1 - y p2) * (x p3 - x p4).

Definition param_t (p1 p2 : Vector2D) (w : Wall) : num :=
  let p3 := start w in
  let p4 := end_ w in
  ((x p1 - x p3) * (y p3 - y p4) - (y p1 - y p3) * (x p3 - x p4))
  / den p1 p2 w.

Definition param_u (p1 p2 : Vector2D) (w : Wall) : num :=
  let p3 := start w in
  - ((x p1 - x p2) * (y p1 - y p3) - (y p1 - y p2) * (x p1 - x p3))
  / den p1 p2 w.

(** One turn of the loop: [None] where the source moves on to the next wall
    without a push. *)
Definition intersect (p1 p2 : Vector2D) (w : Wall) : option Intersection :=
  if den p1 p2 w === dec 0 0 then None
  else
    let t := param_t p1 p2 w in
    let u := param_u p1 p2 w in
    if (t >? dec 0 0) && (t <? dec 1 0) && (u >? dec 0 0) && (u <? dec 1 0)
    then Some {| point := {| x := x p1 + t * (x p2 - x p1);
                             y := y p1 + t * (y p2 - y p1) |};
                 wall := w |}
    else None.

Fixpoint findWallIntersections (p1 p2 : Vector2D) (currentWalls : list Wall)
  : list Intersection :=
  match currentWalls with
  | [] => []
  | w :: rest =>
      match intersect p1 p2 w with
      | Some i => i :: findWallIntersections p1 p2 rest
      | None => findWallIntersections p1 p2 rest
      end
  end.

End Model.

Arguments Vector2D num : clear implicits.
Arguments Wall num : clear implicits.
Arguments Radio num : clear implicits.
Arguments Device num : clear implicits.
Arguments Measurement num : clear implicits.
Arguments Intersection num : clear implicits.

(** ** The trilateration solver *)

Section Solver.

Context {num : Type} {A : Arith num}.
Local Open Scope num_scope.

(** The initial guess of [performTrilateration]: the [reduce] over the
    measurements, which also accumulates [totalWeight], and the division by
    the total weight. *)
Definition weightedSum (activeMeasurements : list (Measurement num))
  : Vector2D num * num :=
  fold_left
    (fun (st : Vector2D num * num) (m : Measurement num) =>
       let (acc, totalWeight) := st in
       let weight := dec 1 0 / estimatedDistance m in
       let totalWeight := totalWeight + weight in
       ({| x := x acc + x (radio m) * weight;
           y := y acc + y (radio m) * weight |}, totalWeight))
    activeMeasurements
    ({| x := dec 0 0; y := dec 0 0 |}, dec 0 0).

Definition initialGuess (activeMeasurements : list (Measurement num))
  : Vector2D num :=
  let (acc, totalWeight) := weightedSum activeMeasurements in
  {| x := x acc / totalWeight; y := y acc / totalWeight |}.

Definition maxIterations : nat := 50.
Definition convergenceThreshold : num := dec 1 1.

(** The rows of [J] and the entries of [r] at the estimate [pos]: a
    measurement closer than [1e-6] to the estimate is skipped. *)
Fixpoint residuals (pos : Vector2D num) (ms : list (Measurement num))
  : list (num * num) * list num :=
  match ms with
  | [] => ([], [])
  | m :: rest =>
      let radioPos := {| x := x (radio m); y := y (radio m) |} in
      let dist := distance pos radioPos in
      let (J, r) := residuals pos rest in
      if dist <? dec 1 6 then (J, r)
      else (((x pos - x radioPos) / dist, (y pos - y radioPos) / dist) :: J,
            (dist - estimatedDistance m * PIXELS_PER_METER) :: r)
  end.

(** How one turn of the loop ends. *)
Inductive Step : Type :=
| TooFewRows                      (* [if (J.length < 2) return pos] *)
| Singular                        (* [if (Math.abs(det) < 1e-9) break] *)
| Converged (pos' : Vector2D num) (* [pos] updated, then [break] *)
| Continue (pos' : Vector2D num). (* [pos] updated, next turn *)

(** The normal-equations matrix [JtJ] (its four entries, row by row) and
    its determinant [det]. *)
Definition normalMatrix (J : list (num * num)) : num * num * num * num :=
  let JtJ00 := fold_left (fun sum row => sum + fst row * fst row) J (dec 0 0) in
  let JtJ01 := fold_left (fun sum row => sum + fst row * snd row) J (dec 0 0) in
  let JtJ10 := JtJ01 in
  let JtJ11 := fold_left (fun sum row => sum + snd row * snd row) J (dec 0 0) in
  (JtJ00, JtJ01, JtJ10, JtJ11).

Definition determinant (J : list (num * num)) : num :=
  let '(JtJ00, JtJ01, JtJ10, JtJ11) := normalMatrix J in
  JtJ00 * JtJ11 - JtJ01 * JtJ10.

(** The step [delta] of one turn, from the rows [J] and the residuals [r],
    once the determinant has passed the test. *)
Definition gaussNewtonDelta (J : list (num * num)) (r : list num)
  : num * num :=
  let '(JtJ00, JtJ01, JtJ10, JtJ11) := normalMatrix J in
  let det := determinant J in
  let invDet := dec 1 0 / det in
  let JtJ_inv00 := invDet * JtJ11 in
  let JtJ_inv01 := - invDet * JtJ01 in
  let JtJ_inv10 := - invDet * JtJ10 in
  let JtJ_inv11 := invDet * JtJ00 in
  let Jtr :=
    fold_left
      (fun (acc : num * num) (jr : (num * num) * num) =>
         (fst acc + fst (fst jr) * snd jr, snd acc + snd (fst jr) * snd jr))
      (combine J r) (dec 0 0, dec 0 0) in
  (- (JtJ_inv00 * fst Jtr + JtJ_inv01 * snd Jtr),
   - (JtJ_inv10 * fst Jtr + JtJ_inv11 * snd Jtr)).

(** The length of the step, as the convergence test computes it. *)
Definition stepNorm (delta : num * num) : num :=
  Math_sqrt (square (fst delta) + square (snd delta)).

Definition gaussNewtonStep (ms : list (Measurement num)) (pos : Vector2D num)
  : Step :=
  let (J, r) := residuals pos ms in
  if (List.length J <? 2)%nat then TooFewRows
  else if Math_abs (determinant J) <? dec 1 9 then Singular
  else
    let delta := gaussNewtonDelta J r in
    let pos' := {| x := x pos + fst delta; y := y pos + snd delta |} in
    if stepNorm delta <? convergenceThreshold
    then Converged pos'
    else Continue pos'.

(** The [for] loop, with [n] turns left. *)
Fixpoint iterate (n : nat) (ms : list (Measurement num)) (pos : Vector2D num)
  : Vector2D num :=
  match n with
  | O => pos
  | S n' =>
      match gaussNewtonStep ms pos with
      | TooFewRows => pos
      | Singular => pos
      | Converged pos' => pos'
      | Continue pos' => iterate n' ms pos'
      end
  end.

Definition performTrilateration (activeMeasurements : list (Measurement num))
  : option (Vector2D num) :=
  if (List.length activeMeasurements <? 3)%nat then None
  else Some (iterate maxIterations activeMeasurements
               (initialGuess activeMeasurements)).

End Solver.

(** ** The propagation model *)

Section Propagation.

Context {num : Type} {A : Arith num} {L : Libm num}.
Local Open Scope num_scope.

(** The simulation parameters that [calculateRSSI] and
    [estimateDistanceFromRSSI] read from the component's state. *)
Record Config : Type := mkConfig {
  txPower : num;
  pathLossExponent : num;
  enableNoise : bool;
  noiseStdDev : num;
  enableWalls : bool;
  enableAngleEffect : bool;
  enableCumulativeEffect : bool
}.

(** The factor that the angle-effect branch multiplies into [wallLoss]. *)
Definition angleFactor (w : Wall num) (transmitter receiver : Vector2D num)
  : num :=
  let wallVec := {| x := x (end_ w) - x (start w);
                    y := y (end_ w) - y (start w) |} in
  let wallNormal := {| x := - y wallVec; y := x wallVec |} in
  let signalVec := {| x := x receiver - x transmitter;
                      y := y receiver - y transmitter |} in
  let dot := x signalVec * x wallNormal + y signalVec * y wallNormal in
  let magSignal := Math_sqrt (square (x signalVec) + square (y signalVec)) in
  let magNormal := Math_sqrt (square (x wallNormal) + square (y wallNormal)) in
  let cosTheta := dot / (magSignal * magNormal) in
  dec 5 1 + dec 5 1 * Math_abs cosTheta.

(** The body of the [forEach] callback: the loss of the [i]-th
    intersection. *)
Definition wallLoss (cfg : Config) (transmitter receiver : Vector2D num)
  (intersection : Intersection num) (i : nat) : num :=
  let wallLoss := attenuation (wall intersection) in
  let wallLoss :=
    if enableAngleEffect cfg
    then wallLoss * angleFactor (wall intersection) transmitter receiver
    else wallLoss in
  let wallLoss :=
    if enableCumulativeEffect cfg && (0 <? i)%nat
    then wallLoss * Math_pow (dec 11 1) (ofIndex i)
    else wallLoss in
  wallLoss.

(** The [forEach] over the intersections from index [i] on, adding to
    [totalAttenuation]. *)
Fixpoint attenuate (cfg : Config) (transmitter receiver : Vector2D num)
  (intersections : list (Intersection num)) (i : nat) (totalAttenuation : num)
  : num :=
  match intersections with
  | [] => totalAttenuation
  | intersection :: rest =>
      attenuate cfg transmitter receiver rest (S i)
        (totalAttenuation + wallLoss cfg transmitter receiver intersection i)
  end.

(** [calculateRSSI]; [walls] is the wall list of the component's state and
    [u1], [u2] are the two results of [Math.random()] (drawn only when the
    noise is enabled). *)
Definition calculateRSSI (cfg : Config) (walls : list (Wall num))
  (u1 u2 : num) (distanceMeters : num) (transmitter : Radio num)
  (receiver : Device num) : num :=
  if distanceMeters <=? dec 0 0 then - dec 30 0
  else
    let rssi := txPower cfg
                - dec 10 0 * pathLossExponent cfg * Math_log10 distanceMeters in
    let rssi :=
      if enableWalls cfg then
        let intersections := findWallIntersections transmitter receiver walls in
        let totalAttenuation :=
          attenuate cfg transmitter receiver intersections 0 (dec 0 0) in
        rssi - totalAttenuation
      else rssi in
    let rssi :=
      if enableNoise cfg then
        let z0 := Math_sqrt (- dec 2 0 * Math_log u1)
                  * Math_cos (dec 2 0 * Math_PI * u2) in
        rssi + z0 * noiseStdDev cfg
      else rssi in
    clamp rssi (- dec 120 0) (- dec 30 0).

Definition estimateDistanceFromRSSI (cfg : Config) (rssi : num) : num :=
  let exponent := (txPower cfg - rssi) / (dec 10 0 * pathLossExponent cfg) in
  Math_pow (dec 10 0) exponent.

(** The measurement of one radio, as the update of the scene computes it
    (the callback of [radios.map]). *)
Definition newMeasurement (cfg : Config) (walls : list (Wall num))
  (u1 u2 : num) (device : Device num) (radio0 : Radio num) : Measurement num :=
  let trueDistPixels := distance radio0 device in
  let trueDistMeters := trueDistPixels / PIXELS_PER_METER in
  let rssi0 := calculateRSSI cfg walls u1 u2 trueDistMeters radio0 device in
  let estimatedDistMeters := estimateDistanceFromRSSI cfg rssi0 in
  {| radio := radio0; trueDistance := trueDistMeters; rssi := rssi0;
     estimatedDistance := estimatedDistMeters |}.

End Propagation.

Arguments Config num : clear implicits.
Arguments Step num : clear implicits.

(** ** The guard for a zero-length signal vector *)

(** The propagation model with the guard that the specification words: the
    angle factor is 1.0 when the signal vector has length 0, and the factor
    of the program otherwise.  Everything else is as in [calculateRSSI]. *)
Section GuardedPropagation.

Context {num : Type} {A : Arith num} {L : Libm num}.
Local Open Scope num_scope.






End GuardedPropagation.

(** ** The scene: measurements, placement and interaction *)

Section Scene.

Context {num : Type} {A : Arith num} {L : Libm num}.
Local Open Scope num_scope.

Definition CANVAS_WIDTH : num := dec 1200 0.
Definition CANVAS_HEIGHT : num := dec 900 0.

(** [canvasToThree = (p) =>
      ({ x: p.x - CANVAS_WIDTH / 2, y: -(p.y - CANVAS_HEIGHT / 2) })] *)
Definition canvasToThree (p : Vector2D num) : Vector2D num :=
  {| x := x p - CANVAS_WIDTH / dec 2 0;
     y := - (y p - CANVAS_HEIGHT / dec 2 0) |}.

(** [isNaN] on a number: the one number that differs from itself. *)
Definition number_isNaN (v : num) : bool := negb (v === v).

(** *** The update of the measurements *)

(** The calls of [Math.random()] that one call of [calculateRSSI] makes:
    two when the noise is enabled and the distance passes the first test,
    none otherwise. *)
Definition randomCalls (cfg : Config num) (distanceMeters : num) : nat :=
  if distanceMeters <=? dec 0 0 then 0
  else if enableNoise cfg then 2 else 0.

(** [radios.map(radio => ...)] of the scene update: [random] is the sequence
    of the results of [Math.random()] and [k] the number of calls made so
    far; the result carries the number of calls made after the last radio. *)
Fixpoint newMeasurements (cfg : Config num) (walls : list (Wall num))
  (random : nat -> num) (k : nat) (device : Device num)
  (radios : list (Radio num)) : list (Measurement num) * nat :=
  match radios with
  | [] => ([], k)
  | radio0 :: rest =>
      let m := newMeasurement cfg walls (random k) (random (S k)) device radio0 in
      let (ms, k') :=
        newMeasurements cfg walls random
          (k + randomCalls cfg (trueDistance m)) device rest in
      (m :: ms, k')
  end.

(** [newMeasurements.filter(m => m.rssi > minRSSI)] *)
Definition activeMeasurements (minRSSI : num) (ms : list (Measurement num))
  : list (Measurement num) :=
  filter (fun m => rssi m >? minRSSI) ms.

(** The estimated position of one scene update. *)
Definition newEstimatedPos (cfg : Config num) (walls : list (Wall num))
  (random : nat -> num) (k : nat) (minRSSI : num) (device : Device num)
  (radios : list (Radio num)) : option (Vector2D num) :=
  performTrilateration
    (activeMeasurements minRSSI
       (fst (newMeasurements cfg walls random k device radios))).

(** *** The device sliders *)

Inductive Axis : Type := axis_x | axis_y.

(** [handleDevicePosChange]; [meters] is [parseFloat(value)]. *)
Definition handleDevicePosChange (axis : Axis) (meters : num) (d : Device num)
  : Device num :=
  if number_isNaN meters then d
  else
    let pixels := meters * PIXELS_PER_METER in
    let newPos :=
      match axis with
      | axis_x => {| x := pixels; y := y d |}
      | axis_y => {| x := x d; y := pixels |}
      end in
    {| device_position :=
         {| x := clamp (x newPos) (device_radius d)
                   (CANVAS_WIDTH - device_radius d);
            y := clamp (y newPos) (device_radius d)
                   (CANVAS_HEIGHT - device_radius d) |};
       device_radius := device_radius d |}.

(** *** The mouse *)

(** What is being dragged ([DragObject]): the target, a radio or the device,
    and the offset of its position from the mouse at the grab. *)
Inductive DragObject : Type :=
| DragRadio (target : Radio num) (offset : Vector2D num)
| DragDevice (target : Device num) (offset : Vector2D num).

(** The scene objects and the interaction state of the component. *)
Record Scene : Type := mkScene {
  radios : list (Radio num);
  walls : list (Wall num);
  device : Device num;
  drawWallMode : bool;
  tempWallStart : option (Vector2D num * Vector2D num);
  dragging : option DragObject
}.

(** [handleMouseDown]; [hit] is the first object under the mouse, as the
    ray caster of the rendering library reports it. *)
Definition handleMouseDown (mousePos : Vector2D num)
  (hit : option (Radio num + Device num)) (s : Scene) : Scene :=
  if drawWallMode s then
    match tempWallStart s with
    | None =>
        {| radios := radios s; walls := walls s; device := device s;
           drawWallMode := drawWallMode s;
           tempWallStart := Some (mousePos, mousePos);
           dragging := dragging s |}
    | Some _ => s
    end
  else
    match hit with
    | Some (inl target) =>
        {| radios := radios s; walls := walls s; device := device s;
           drawWallMode := drawWallMode s; tempWallStart := tempWallStart s;
           dragging :=
             Some (DragRadio target
                     {| x := x target - x mousePos;
                        y := y target - y mousePos |}) |}
    | Some (inr target) =>
        {| radios := radios s; walls := walls s; device := device s;
           drawWallMode := drawWallMode s; tempWallStart := tempWallStart s;
           dragging :=
             Some (DragDevice target
                     {| x := x target - x mousePos;
                        y := y target - y mousePos |}) |}
    | None => s
    end.

(** [rs.map(r => r.id === target.id ? { ...r, ...newPos } : r)] *)
Definition moveRadio (target : Radio num) (newPos : Vector2D num)
  (rs : list (Radio num)) : list (Radio num) :=
  map (fun r =>
         if String.eqb (id r) (id target)
         then {| radio_position := newPos; id := id r;
                 radio_radius := radio_radius r; label := label r |}
         else r) rs.

(** [handleMouseMove] *)
Definition handleMouseMove (mousePos : Vector2D num) (s : Scene) : Scene :=
  match drawWallMode s, tempWallStart s with
  | true, Some (start0, _) =>
      {| radios := radios s; walls := walls s; device := device s;
         drawWallMode := drawWallMode s;
         tempWallStart := Some (start0, mousePos);
         dragging := dragging s |}
  | _, _ =>
      match dragging s with
      | Some (DragDevice _ offset) =>
          {| radios := radios s; walls := walls s;
             device := {| device_position :=
                            {| x := x mousePos + x offset;
                               y := y mousePos + y offset |};
                          device_radius := device_radius (device s) |};
             drawWallMode := drawWallMode s;
             tempWallStart := tempWallStart s; dragging := dragging s |}
      | Some (DragRadio target offset) =>
          {| radios := moveRadio target
                         {| x := x mousePos + x offset;
                            y := y mousePos + y offset |} (radios s);
             walls := walls s; device := device s;
             drawWallMode := drawWallMode s;
             tempWallStart := tempWallStart s; dragging := dragging s |}
      | None => s
      end
  end.

(** [handleMouseUp]; [end0] is the mouse position and [newId] the result of
    [generateId()]. *)
Definition handleMouseUp (end0 : Vector2D num) (newId : string) (s : Scene)
  : Scene :=
  match drawWallMode s, tempWallStart s with
  | true, Some (start0, _) =>
      {| radios := radios s;
         walls :=
           if distance start0 end0 >? dec 10 0
           then walls s ++ [ {| wall_id := newId; start := start0; end_ := end0;
                                material := drywall;
                                attenuation := WALL_MATERIALS drywall;
                                color := 0xcccccc |} ]
           else walls s;
         device := device s;
         drawWallMode := false;
         tempWallStart := None;
         dragging := None |}
  | _, _ =>
      {| radios := radios s; walls := walls s; device := device s;
         drawWallMode := drawWallMode s; tempWallStart := tempWallStart s;
         dragging := None |}
  end.

End Scene.

Arguments Scene num : clear implicits.
Arguments DragObject num : clear implicits.

(** *** The placement of the radios *)

Section Placement.

Context {num : Type} {A : Arith num} {L : Libm num}.
Local Open Scope num_scope.

(** [Math.sin], and [generateId] as the sequence of its results. *)
Variable Math_sin : num -> num.
Variable generateId : nat -> string.

(** The label [`R${i+1}`]. *)
Definition radioLabel (i : nat) : string :=
  String.append "R" (NilEmpty.string_of_uint (Nat.to_uint (S i))).

Definition radioAt (i : nat) (a b : num) (name : string) : Radio num :=
  {| radio_position := {| x := a; y := b |}; id := generateId i;
     radio_radius := dec 10 0; label := name |}.

(** [initializeRadios]: the list given to [setRadios]. *)
Definition initializeRadios (count : nat) : list (Radio num) :=
  let margin := dec 50 0 in
  let width := CANVAS_WIDTH in
  let height := CANVAS_HEIGHT in
  match count with
  | 3%nat =>
      [ radioAt 0 (width / dec 2 0) margin "R1";
        radioAt 1 margin (height - margin) "R2";
        radioAt 2 (width - margin) (height - margin) "R3" ]
  | 4%nat =>
      [ radioAt 0 margin margin "R1";
        radioAt 1 (width - margin) margin "R2";
        radioAt 2 (width - margin) (height - margin) "R3";
        radioAt 3 margin (height - margin) "R4" ]
  | _ =>
      let centerX := width / dec 2 0 in
      let centerY := height / dec 2 0 in
      let radius := Math_min width height / dec 2 0 - margin in
      map (fun i =>
             let angle := ofIndex i * dec 2 0 * Math_PI / ofIndex count
                          - Math_PI / dec 2 0 in
             radioAt i (centerX + radius * Math_cos angle)
               (centerY + radius * Math_sin angle) (radioLabel i))
        (seq 0 count)
  end.

End Placement.

(** * Properties *)

(** ** The intersection test *)

Section IntersectionFacts.

Context {num : Type} {A : Arith num}.
Local Open Scope num_scope.

(** A parameter lies strictly between [0] and [1], by the two comparisons of
    the source. *)
Definition strictlyInside (t : num) : bool :=
  (t >? dec 0 0) && (t <? dec 1 0).

(** The test of one wall, as a boolean. *)
Definition crosses (p1 p2 : Vector2D num) (w : Wall num) : bool :=
  negb (den p1 p2 w === dec 0 0)
  && strictlyInside (param_t p1 p2 w) && strictlyInside (param_u p1 p2 w).

Lemma intersect_Some_crosses (p1 p2 : Vector2D num) (w : Wall num) :
  crosses p1 p2 w = true ->
  intersect p1 p2 w =
    Some {| point := {| x := x p1 + param_t p1 p2 w * (x p2 - x p1);
                        y := y p1 + param_t p1 p2 w * (y p2 - y p1) |};
            wall := w |}.
Proof.
  unfold crosses, strictlyInside, intersect.
  destruct (den p1 p2 w === dec 0 0); simpl; [discriminate|].
  destruct (param_t p1 p2 w >? dec 0 0), (param_t p1 p2 w <? dec 1 0),
    (param_u p1 p2 w >? dec 0 0), (param_u p1 p2 w <? dec 1 0);
    simpl; intros H; (discriminate || reflexivity).
Qed.

Lemma intersect_None_crosses (p1 p2 : Vector2D num) (w : Wall num) :
  crosses p1 p2 w = false -> intersect p1 p2 w = None.
Proof.
  unfold crosses, strictlyInside, intersect.
  destruct (den p1 p2 w === dec 0 0); simpl; [reflexivity|].
  destruct (param_t p1 p2 w >? dec 0 0), (param_t p1 p2 w <? dec 1 0),
    (param_u p1 p2 w >? dec 0 0), (param_u p1 p2 w <? dec 1 0);
    simpl; intros H; (discriminate || reflexivity).
Qed.

Lemma findWallIntersections_walls (p1 p2 : Vector2D num) (ws : list (Wall num)) :
  map wall (findWallIntersections p1 p2 ws) = filter (crosses p1 p2) ws.
Proof.
  induction ws as [|w ws IH]; simpl; [reflexivity|].
  destruct (crosses p1 p2 w) eqn:E.
  - rewrite (intersect_Some_crosses _ _ _ E). simpl. now rewrite IH.
  - now rewrite (intersect_None_crosses _ _ _ E).
Qed.

Lemma findWallIntersections_points (p1 p2 : Vector2D num) (ws : list (Wall num)) :
  Forall (fun i => intersect p1 p2 (wall i) = Some i)
    (findWallIntersections p1 p2 ws).
Proof.
  induction ws as [|w ws IH]; simpl; [constructor|].
  destruct (intersect p1 p2 w) as [i|] eqn:E; [|exact IH].
  constructor; [|exact IH].
  assert (wall i = w) as ->; [|exact E].
  unfold intersect in E.
  destruct (den p1 p2 w === dec 0 0); [discriminate|].
  destruct (_ && _) in E; [|discriminate].
  now injection E as <-.
Qed.

End IntersectionFacts.

(** ** The solver: its result and its loop *)

Section SolverFacts.

Context {num : Type} {A : Arith num}.
Local Open Scope num_scope.

(** The number of usable gradient rows at an estimate. *)
Definition usableRows (ms : list (Measurement num)) (pos : Vector2D num) : nat :=
  List.length (fst (residuals pos ms)).

(** The measurements that the loop does not skip at an estimate. *)
Definition usable (pos : Vector2D num) (m : Measurement num) : bool :=
  negb (distance pos {| x := x (radio m); y := y (radio m) |} <? dec 1 6).

Lemma residuals_cons (pos : Vector2D num) (m : Measurement num)
  (ms : list (Measurement num)) :
  residuals pos (m :: ms)
  = if usable pos m
    then (((x pos - x (radio m))
           / distance pos {| x := x (radio m); y := y (radio m) |},
           (y pos - y (radio m))
           / distance pos {| x := x (radio m); y := y (radio m) |})
            :: fst (residuals pos ms),
          (distance pos {| x := x (radio m); y := y (radio m) |}
           - estimatedDistance m * PIXELS_PER_METER)
            :: snd (residuals pos ms))
    else residuals pos ms.
Proof.
  unfold usable. cbn [residuals x y].
  destruct (residuals pos ms) as [J r].
  now destruct (distance pos _ <? dec 1 6).
Qed.

Lemma residuals_shape (pos : Vector2D num) (ms : list (Measurement num)) :
  List.length (fst (residuals pos ms)) = List.length (snd (residuals pos ms))
  /\ List.length (fst (residuals pos ms))
     = List.length (filter (usable pos) ms)
  /\ snd (residuals pos ms)
     = map (fun m =>
              distance pos {| x := x (radio m); y := y (radio m) |}
              - estimatedDistance m * PIXELS_PER_METER)
         (filter (usable pos) ms)
  /\ (usableRows ms pos <= List.length ms)%nat.
Proof.
  unfold usableRows.
  induction ms as [|m ms (IH1 & IH2 & IH3 & IH4)]; [simpl; auto|].
  rewrite residuals_cons. cbn [filter].
  destruct (usable pos m); cbn [fst snd List.length map];
    repeat split; try congruence; lia.
Qed.

(** C9: a list of fewer than 3 measurements gives the "no estimate" result
    [None], and only such a list does; a list of at least 3 measurements
    gives a point. *)
Theorem performTrilateration_none_or_point (ms : list (Measurement num)) :
  (performTrilateration ms = None <-> (List.length ms < 3)%nat)
  /\ ((exists p, performTrilateration ms = Some p) <-> (3 <= List.length ms)%nat).
Proof.
  unfold performTrilateration.
  destruct (Nat.ltb_spec (List.length ms) 3) as [H|H]; split; split.
  - intros _. exact H.
  - reflexivity.
  - intros [p Hp]. discriminate.
  - lia.
  - discriminate.
  - lia.
  - intros _. exact H.
  - intros _. eexists. reflexivity.
Qed.

(** One turn of the loop, written out from the measurements: the
    measurements that give a row, the row and the residual of each, the sums
    of the normal equations, their determinant and the step. *)
Definition rowsAt (ms : list (Measurement num)) (pos : Vector2D num)
  : list (Measurement num) :=
  filter (usable pos) ms.

Definition gradientRow (pos : Vector2D num) (m : Measurement num)
  : num * num :=
  let dist := distance pos {| x := x (radio m); y := y (radio m) |} in
  ((x pos - x (radio m)) / dist, (y pos - y (radio m)) / dist).

Definition residualOf (pos : Vector2D num) (m : Measurement num) : num :=
  distance pos {| x := x (radio m); y := y (radio m) |}
  - estimatedDistance m * PIXELS_PER_METER.

Definition sumOver {T : Type} (f : T -> num) (l : list T) : num :=
  fold_left (fun sum v => sum + f v) l (dec 0 0).

Definition normalSums (ms : list (Measurement num)) (pos : Vector2D num)
  : num * num * num :=
  let rows := rowsAt ms pos in
  (sumOver (fun m => fst (gradientRow pos m) * fst (gradientRow pos m)) rows,
   sumOver (fun m => fst (gradientRow pos m) * snd (gradientRow pos m)) rows,
   sumOver (fun m => snd (gradientRow pos m) * snd (gradientRow pos m)) rows).

Definition detAt (ms : list (Measurement num)) (pos : Vector2D num) : num :=
  let '(a, b, c) := normalSums ms pos in
  a * c - b * b.

Definition stepAt (ms : list (Measurement num)) (pos : Vector2D num)
  : num * num :=
  let '(a, b, c) := normalSums ms pos in
  let inv := dec 1 0 / detAt ms pos in
  let g0 := sumOver (fun m => fst (gradientRow pos m) * residualOf pos m)
              (rowsAt ms pos) in
  let g1 := sumOver (fun m => snd (gradientRow pos m) * residualOf pos m)
              (rowsAt ms pos) in
  (- (inv * c * g0 + - inv * b * g1),
   - (- inv * b * g0 + inv * a * g1)).

Definition stepLength (delta : num * num) : num :=
  Math_sqrt (fst delta * fst delta + snd delta * snd delta).

Definition movedBy (pos : Vector2D num) (delta : num * num) : Vector2D num :=
  {| x := x pos + fst delta; y := y pos + snd delta |}.

(** [Run ms n pos k result]: with [n] turns left and the estimate [pos],
    the loop updates the estimate [k] times and ends with [result].  It ends
    when no turn is left, or at the first turn where a test holds; a turn
    where none of the three tests holds updates the estimate and goes on. *)
Inductive Run (ms : list (Measurement num))
  : nat -> Vector2D num -> nat -> Vector2D num -> Prop :=
| Run_spent : forall pos,
    Run ms 0 pos 0 pos
| Run_rows : forall n pos,
    (List.length (rowsAt ms pos) < 2)%nat ->
    Run ms (S n) pos 0 pos
| Run_det : forall n pos,
    (2 <= List.length (rowsAt ms pos))%nat ->
    (Math_abs (detAt ms pos) <? dec 1 9) = true ->
    Run ms (S n) pos 0 pos
| Run_step : forall n pos,
    (2 <= List.length (rowsAt ms pos))%nat ->
    (Math_abs (detAt ms pos) <? dec 1 9) = false ->
    (stepLength (stepAt ms pos) <? dec 1 1) = true ->
    Run ms (S n) pos 1 (movedBy pos (stepAt ms pos))
| Run_next : forall n pos k result,
    (2 <= List.length (rowsAt ms pos))%nat ->
    (Math_abs (detAt ms pos) <? dec 1 9) = false ->
    (stepLength (stepAt ms pos) <? dec 1 1) = false ->
    Run ms n (movedBy pos (stepAt ms pos)) k result ->
    Run ms (S n) pos (S k) result.

Lemma residuals_rows (pos : Vector2D num) (ms : list (Measurement num)) :
  residuals pos ms
  = (map (gradientRow pos) (rowsAt ms pos),
     map (residualOf pos) (rowsAt ms pos)).
Proof.
  unfold rowsAt. induction ms as [|m ms IH]; [reflexivity|].
  rewrite residuals_cons, IH. cbn [filter fst snd].
  destruct (usable pos m); reflexivity.
Qed.

Lemma sum_of_rows {T : Type} (g : T -> num * num) (f : num * num -> num)
  (l : list T) :
  forall s,
    fold_left (fun sum row => sum + f row) (map g l) s
    = fold_left (fun sum v => sum + f (g v)) l s.
Proof.
  induction l as [|v l IH]; intros s; [reflexivity|]. simpl. apply IH.
Qed.

Lemma sum_of_products {T : Type} (g : T -> num * num) (r : T -> num)
  (l : list T) :
  forall acc : num * num,
    fold_left
      (fun (acc : num * num) (jr : (num * num) * num) =>
         (fst acc + fst (fst jr) * snd jr, snd acc + snd (fst jr) * snd jr))
      (combine (map g l) (map r l)) acc
    = (fold_left (fun sum v => sum + fst (g v) * r v) l (fst acc),
       fold_left (fun sum v => sum + snd (g v) * r v) l (snd acc)).
Proof.
  induction l as [|v l IH]; intros acc; [now destruct acc|].
  simpl. rewrite IH. reflexivity.
Qed.

Lemma determinant_rows (ms : list (Measurement num)) (pos : Vector2D num) :
  determinant (map (gradientRow pos) (rowsAt ms pos)) = detAt ms pos.
Proof.
  unfold determinant, normalMatrix, detAt, normalSums, sumOver.
  now rewrite !sum_of_rows.
Qed.

Lemma gaussNewtonDelta_rows (ms : list (Measurement num)) (pos : Vector2D num) :
  gaussNewtonDelta (map (gradientRow pos) (rowsAt ms pos))
    (map (residualOf pos) (rowsAt ms pos))
  = stepAt ms pos.
Proof.
  unfold gaussNewtonDelta. rewrite determinant_rows.
  unfold normalMatrix, stepAt, normalSums, sumOver.
  rewrite !sum_of_rows, sum_of_products. reflexivity.
Qed.

(** One turn of the program is the turn written out above. *)
Lemma gaussNewtonStep_rows (ms : list (Measurement num)) (pos : Vector2D num) :
  gaussNewtonStep ms pos
  = if (List.length (rowsAt ms pos) <? 2)%nat then TooFewRows
    else if Math_abs (detAt ms pos) <? dec 1 9 then Singular
    else if stepLength (stepAt ms pos) <? dec 1 1
         then Converged (movedBy pos (stepAt ms pos))
         else Continue (movedBy pos (stepAt ms pos)).
Proof.
  unfold gaussNewtonStep. rewrite residuals_rows, length_map.
  rewrite determinant_rows, gaussNewtonDelta_rows. reflexivity.
Qed.

Lemma iterate_run (ms : list (Measurement num)) (n : nat) :
  forall pos, exists k, (k <= n)%nat /\ Run ms n pos k (iterate n ms pos).
Proof.
  induction n as [|n IH]; intros pos.
  - exists 0%nat. split; [lia|]. constructor.
  - cbn [iterate]. rewrite gaussNewtonStep_rows.
    destruct (Nat.ltb_spec (List.length (rowsAt ms pos)) 2) as [Hr|Hr].
    { exists 0%nat. split; [lia|]. now apply Run_rows. }
    destruct (Math_abs (detAt ms pos) <? dec 1 9) eqn:Hd.
    { exists 0%nat. split; [lia|]. now apply Run_det. }
    destruct (stepLength (stepAt ms pos) <? dec 1 1) eqn:Hs.
    { exists 1%nat. split; [lia|]. now apply Run_step. }
    destruct (IH (movedBy pos (stepAt ms pos))) as (k & Hk & Hrun).
    exists (S k). split; [lia|]. now apply Run_next.
Qed.

Lemma Run_functional (ms : list (Measurement num)) (n : nat)
  (pos : Vector2D num) (k : nat) (result : Vector2D num) :
  Run ms n pos k result ->
  forall k' result', Run ms n pos k' result' -> k' = k /\ result' = result.
Proof.
  induction 1 as [pos|n pos Hr|n pos Hr Hd|n pos Hr Hd Hs
                 |n pos k result Hr Hd Hs Hrun IH];
    intros k' result' H'; inversion H'; subst; auto;
    try lia; try congruence.
  match goal with
  | Hrest : Run ms n _ _ _ |- _ => destruct (IH _ _ Hrest) as [-> ->]
  end.
  auto.
Qed.

(** C10: with at least 3 measurements the solver returns a point, after at
    most 50 updates of the estimate.  The loop ends when its 50 turns are
    used, or at the first turn where fewer than 2 measurements give a row
    (the estimate is returned as it is), where the determinant of the normal
    equations is below [1e-9] in absolute value (the estimate is returned as
    it is), or where the step is shorter than [0.1] (the estimate moved by
    that step is returned); a turn where none of these holds moves the
    estimate by the step and the loop goes on.  The result is the only one
    that such a run from the initial guess can have. *)
Theorem performTrilateration_terminates (ms : list (Measurement num)) :
  (3 <= List.length ms)%nat ->
  exists (k : nat) (result : Vector2D num),
    performTrilateration ms = Some result
    /\ (k <= 50)%nat
    /\ Run ms 50 (initialGuess ms) k result
    /\ (forall k' result',
          Run ms 50 (initialGuess ms) k' result' ->
          k' = k /\ result' = result).
Proof.
  intros Hlen. unfold performTrilateration.
  destruct (Nat.ltb_spec (List.length ms) 3) as [H|_]; [lia|].
  destruct (iterate_run ms maxIterations (initialGuess ms)) as (k & Hk & Hrun).
  exists k, (iterate maxIterations ms (initialGuess ms)).
  split; [reflexivity|]. split; [exact Hk|]. split; [exact Hrun|].
  now apply Run_functional.
Qed.

End SolverFacts.

(** ** The propagation model: wall losses *)

Section PropagationFacts.

Context {num : Type} {A : Arith num} {L : Libm num}.
Local Open Scope num_scope.

(** The loss of one crossed wall before the cumulative factor: its
    attenuation, scaled by the angle factor when that effect is enabled. *)
Definition perWallLoss (cfg : Config num) (transmitter receiver : Vector2D num)
  (intersection : Intersection num) : num :=
  if enableAngleEffect cfg
  then attenuation (wall intersection)
       * angleFactor (wall intersection) transmitter receiver
  else attenuation (wall intersection).

(** The contribution of the [i]-th crossed wall under the cumulative
    effect. *)
Definition cumulativeLoss (cfg : Config num) (transmitter receiver : Vector2D num)
  (i : nat) (intersection : Intersection num) : num :=
  match i with
  | O => perWallLoss cfg transmitter receiver intersection
  | S _ => perWallLoss cfg transmitter receiver intersection
           * Math_pow (dec 11 1) (ofIndex i)
  end.

(** The intersections with their indices, from [i] on. *)
Fixpoint indexedFrom {T : Type} (i : nat) (l : list T) : list (nat * T) :=
  match l with
  | [] => []
  | a :: rest => (i, a) :: indexedFrom (S i) rest
  end.

Lemma attenuate_fold (cfg : Config num) (transmitter receiver : Vector2D num)
  (intersections : list (Intersection num)) :
  forall (i : nat) (total : num),
    attenuate cfg transmitter receiver intersections i total =
    fold_left
      (fun acc (e : nat * Intersection num) =>
         acc + wallLoss cfg transmitter receiver (snd e) (fst e))
      (indexedFrom i intersections) total.
Proof.
  induction intersections as [|a rest IH]; intros i total; simpl;
    [reflexivity|apply IH].
Qed.

Lemma wallLoss_cumulative (cfg : Config num) (transmitter receiver : Vector2D num)
  (intersection : Intersection num) (i : nat) :
  enableCumulativeEffect cfg = true ->
  wallLoss cfg transmitter receiver intersection i =
  cumulativeLoss cfg transmitter receiver i intersection.
Proof.
  intros Hc. unfold wallLoss, cumulativeLoss, perWallLoss. rewrite Hc.
  destruct i; simpl; destruct (enableAngleEffect cfg); reflexivity.
Qed.

Lemma fold_left_ext_in {T U : Type} (f g : U -> T -> U) (l : list T) :
  (forall a u, In a l -> f u a = g u a) ->
  forall u, fold_left f l u = fold_left g l u.
Proof.
  induction l as [|a l IH]; intros H u; simpl; [reflexivity|].
  rewrite (H a u (or_introl eq_refl)). apply IH.
  intros b v Hb. apply H. now right.
Qed.

(** C8: with wall attenuation and the cumulative effect enabled, the walls
    that contribute are the crossed walls in the order the walls are
    supplied; the total attenuation adds, in that order, the per-wall loss of
    the crossed wall of index 0 as it is and the per-wall loss of the crossed
    wall of index [i > 0] multiplied by [Math.pow(1.1, i)]; and that total is
    what [calculateRSSI] subtracts. *)
Theorem cumulative_effect_by_index
  (txPower0 pathLossExponent0 noiseStdDev0 : num) (angle noise : bool)
  (walls : list (Wall num)) (u1 u2 distanceMeters : num)
  (transmitter : Radio num) (receiver : Device num) :
  let cfg := {| txPower := txPower0; pathLossExponent := pathLossExponent0;
                enableNoise := noise; noiseStdDev := noiseStdDev0;
                enableWalls := true; enableAngleEffect := angle;
                enableCumulativeEffect := true |} in
  let intersections := findWallIntersections transmitter receiver walls in
  let totalAttenuation :=
    fold_left
      (fun acc (e : nat * Intersection num) =>
         acc + cumulativeLoss cfg transmitter receiver (fst e) (snd e))
      (indexedFrom 0 intersections) (dec 0 0) in
  map wall intersections = filter (crosses transmitter receiver) walls
  /\ attenuate cfg transmitter receiver intersections 0 (dec 0 0)
     = totalAttenuation
  /\ (forall intersection i,
        wallLoss cfg transmitter receiver intersection (S i)
        = perWallLoss cfg transmitter receiver intersection
          * Math_pow (dec 11 1) (ofIndex (S i)))
  /\ (forall intersection,
        wallLoss cfg transmitter receiver intersection 0
        = perWallLoss cfg transmitter receiver intersection)
  /\ calculateRSSI cfg walls u1 u2 distanceMeters transmitter receiver
     = if distanceMeters <=? dec 0 0 then - dec 30 0
       else
         let rssi :=
           txPower0 - dec 10 0 * pathLossExponent0 * Math_log10 distanceMeters
           - totalAttenuation in
         let rssi :=
           if noise
           then rssi + Math_sqrt (- dec 2 0 * Math_log u1)
                       * Math_cos (dec 2 0 * Math_PI * u2) * noiseStdDev0
           else rssi in
         clamp rssi (- dec 120 0) (- dec 30 0).
Proof.
  intros cfg intersections totalAttenuation.
  assert (Hatt : attenuate cfg transmitter receiver intersections 0 (dec 0 0)
                 = totalAttenuation).
  { rewrite attenuate_fold. apply fold_left_ext_in.
    intros [i a] u _. simpl. now rewrite wallLoss_cumulative. }
  split; [apply findWallIntersections_walls|].
  split; [exact Hatt|].
  split; [intros; now rewrite wallLoss_cumulative|].
  split; [intros; now rewrite wallLoss_cumulative|].
  unfold calculateRSSI. simpl.
  destruct (distanceMeters <=? dec 0 0); [reflexivity|].
  fold intersections. now rewrite Hatt.
Qed.

(** With the wall attenuation and the noise disabled, what is left of
    [calculateRSSI] is the log-distance law and the clamp. *)
Lemma calculateRSSI_free_space (cfg : Config num) (walls : list (Wall num))
  (u1 u2 distanceMeters : num) (transmitter : Radio num) (receiver : Device num) :
  enableWalls cfg = false ->
  enableNoise cfg = false ->
  calculateRSSI cfg walls u1 u2 distanceMeters transmitter receiver
  = if distanceMeters <=? dec 0 0 then - dec 30 0
    else clamp (txPower cfg
                - dec 10 0 * pathLossExponent cfg * Math_log10 distanceMeters)
           (- dec 120 0) (- dec 30 0).
Proof.
  intros Hw Hn. unfold calculateRSSI. now rewrite Hw, Hn.
Qed.

End PropagationFacts.

(** ** The propagation model: the guard for a zero-length signal vector *)

Section GuardFacts.

Context {num : Type} {A : Arith num} {L : Libm num}.
Local Open Scope num_scope.




End GuardFacts.

(** ** Binary64: the program on concrete inputs *)

Module Scenario.

Local Open Scope num_scope.

Definition at_ (a b : float) : Vector2D float := {| x := a; y := b |}.

Definition beacon (name : string) (a b : float) : Radio float :=
  {| radio_position := at_ a b; id := name; radio_radius := dec 10 0;
     label := name |}.

Definition phone (a b : float) : Device float :=
  {| device_position := at_ a b; device_radius := dec 10 0 |}.

(** A measurement as the solver reads it: the radio and the estimated
    distance (the solver reads neither [trueDistance] nor [rssi]). *)
Definition reading (r : Radio float) (d : float) : Measurement float :=
  {| radio := r; trueDistance := d; rssi := dec 0 0; estimatedDistance := d |}.

Definition concreteWall (name : string) (a b c d : float) : Wall float :=
  {| wall_id := name; start := at_ a b; end_ := at_ c d;
     material := concrete; attenuation := WALL_MATERIALS concrete;
     color := 0x888888 |}.

(** The walls of [resetWalls]. *)
Definition defaultWalls : list (Wall float) :=
  [ concreteWall "w1" (dec 300 0) (dec 200 0) (dec 300 0) (dec 700 0);
    concreteWall "w2" (dec 900 0) (dec 200 0) (dec 900 0) (dec 700 0);
    concreteWall "w3" (dec 300 0) (dec 450 0) (dec 600 0) (dec 450 0) ].

(** The initial state of the simulation parameters. *)
Definition defaultConfig : Config float :=
  {| txPower := - dec 59 0; pathLossExponent := dec 27 1;
     enableNoise := false; noiseStdDev := dec 5 0;
     enableWalls := true; enableAngleEffect := true;
     enableCumulativeEffect := true |}.

(** The equilateral triangle of beacons, each reporting the distance [d]. *)
Definition equilateral (d : float) : list (Measurement float) :=
  [ reading (beacon "R1" (dec 0 0) (dec 0 0)) d;
    reading (beacon "R2" (dec 100 0) (dec 0 0)) d;
    reading (beacon "R3" (dec 50 0) (dec 866 1)) d ].

(** [a] is within [tol] of [b]. *)
Definition within (tol a b : float) : bool := Math_abs (a - b) <? tol.

(** A wall at 45 degrees and a signal path that crosses it at right angles,
    along the wall's normal. *)
Definition diagonalWall : Wall float :=
  concreteWall "d" (dec 0 0) (dec 0 0) (dec 2 0) (dec 2 0).
Definition diagonalFrom : Vector2D float := at_ (dec 2 0) (dec 0 0).
Definition diagonalTo : Vector2D float := at_ (dec 0 0) (dec 2 0).

(** A second wall and a path across it, along its normal. *)
Definition slantedWall : Wall float :=
  concreteWall "s" (dec 0 0) (dec 0 0) (dec 356 1) (dec 92 1).
Definition slantedFrom : Vector2D float := at_ (dec 224 1) (- dec 132 1).
Definition slantedTo : Vector2D float := at_ (dec 132 1) (dec 224 1).

(** The noise enabled with a standard deviation of 0, the lowest position
    of its slider. *)
Definition silentNoise : Config float :=
  {| txPower := - dec 59 0; pathLossExponent := dec 27 1;
     enableNoise := true; noiseStdDev := dec 0 0;
     enableWalls := true; enableAngleEffect := true;
     enableCumulativeEffect := true |}.


End Scenario.

(** An engine for closed examples.  The facts proved for every engine hold
    for this one, and the examples that use it read no approximation: they
    stay at the arguments where the language standard fixes the result. *)
Definition sampleEngine : F64.Engine :=
  {| F64.engine_log10 := fun v => v; F64.engine_log := fun v => v;
     F64.engine_cos := fun v => v; F64.engine_pow := fun b _ => b |}.

Section Binary64Facts.

Import Scenario.
Local Open Scope num_scope.

(** The decimal literals of the source are the binary64 numbers that the
    language reads them as. *)
Lemma literals_binary64 :
  (dec 5 1 : float) = 0x1p-1%float
  /\ (dec 11 1 : float) = 0x1.199999999999ap+0%float
  /\ (dec 1 1 : float) = 0x1.999999999999ap-4%float
  /\ (dec 1 6 : float) = 0x1.0c6f7a0b5ed8dp-20%float
  /\ (dec 1 9 : float) = 0x1.12e0be826d695p-30%float
  /\ (dec 27 1 : float) = 0x1.599999999999ap+1%float.
Proof. repeat split; vm_compute; reflexivity. Qed.

(** C2: for the three beacons at (0,0), (100,0), (50,86.6), each with the
    estimated distance 57.7 in the units of the coordinates (that is,
    [57.7 / PIXELS_PER_METER] in the solver's meters), the solver returns a
    point within 0.1 of (50, 28.9), and it leaves the loop in its first turn by
    the convergence test.  The same holds when 57.7 is passed as it is. *)
Theorem equilateral_converges :
  (exists p,
      performTrilateration (equilateral (dec 577 1 / PIXELS_PER_METER)) = Some p
      /\ gaussNewtonStep (equilateral (dec 577 1 / PIXELS_PER_METER))
           (initialGuess (equilateral (dec 577 1 / PIXELS_PER_METER)))
         = Converged p
      /\ within convergenceThreshold (x p) (dec 50 0) = true
      /\ within convergenceThreshold (y p) (dec 289 1) = true)
  /\ (exists p,
      performTrilateration (equilateral (dec 577 1)) = Some p
      /\ gaussNewtonStep (equilateral (dec 577 1))
           (initialGuess (equilateral (dec 577 1)))
         = Converged p
      /\ within convergenceThreshold (x p) (dec 50 0) = true
      /\ within convergenceThreshold (y p) (dec 289 1) = true).
Proof.
  split.
  - eexists.
    split; [vm_compute; reflexivity|].
    split; [vm_compute; reflexivity|].
    split; vm_compute; reflexivity.
  - eexists.
    split; [vm_compute; reflexivity|].
    split; [vm_compute; reflexivity|].
    split; vm_compute; reflexivity.
Qed.

(** The angle factor in binary64 on nonzero vectors.  For the diagonal wall
    and the path across it, whose signal vector is the wall normal itself
    (head-on incidence), the factor is below 1.0 (it is
    0.99999999999999989); for the slanted wall and the path across it the
    factor is above 1.0 (it is 1.0000000000000002). *)
Lemma angle_factor_rounding :
  (x diagonalTo - x diagonalFrom, y diagonalTo - y diagonalFrom)
  = (- (y (end_ diagonalWall) - y (start diagonalWall)),
     x (end_ diagonalWall) - x (start diagonalWall))
  /\ crosses diagonalFrom diagonalTo diagonalWall = true
  /\ (angleFactor diagonalWall diagonalFrom diagonalTo <? dec 1 0) = true
  /\ crosses slantedFrom slantedTo slantedWall = true
  /\ (angleFactor slantedWall slantedFrom slantedTo >? dec 1 0) = true.
Proof. repeat split; vm_compute; reflexivity. Qed.

(** C4, at a failing input: the noise is enabled with standard deviation 0,
    the device is 1 m from the radio R1 with no wall between them, and the two
    calls of [Math.random()] return 0.  Then [Math.log(u1)] is [-Infinity],
    the sample [z0] is [+Infinity], [z0 * 0] is [NaN], and the value returned
    by [calculateRSSI] is [NaN], which is not in [-120, -30]: neither
    comparison with the bounds holds.  Whatever the engine's approximations
    of the transcendental functions are. *)
Theorem calculateRSSI_nan_at_zero_sample (E : F64.Engine) :
  let R1 := beacon "R1" (dec 50 0) (dec 50 0) in
  let device := phone (dec 90 0) (dec 50 0) in
  let m := newMeasurement (L := F64.libm E) silentNoise defaultWalls
             (dec 0 0) (dec 0 0) device R1 in
  trueDistance m = dec 1 0
  /\ rssi m = calculateRSSI (L := F64.libm E) silentNoise defaultWalls
                (dec 0 0) (dec 0 0) (dec 1 0) R1 device
  /\ PrimFloat.is_nan (rssi m) = true
  /\ (- dec 120 0 <=? rssi m) = false
  /\ (rssi m <=? - dec 30 0) = false.
Proof. repeat split; vm_compute; reflexivity. Qed.

(** The cumulative effect follows the order in which the walls are supplied.
    The path from (50, 300) to (1150, 300) crosses the first two default walls
    head-on (factor 1.0 each).  With the walls as [resetWalls] builds them, the
    wall at x = 300 has index 0 and the wall at x = 900 is scaled by
    [Math.pow(1.1, 1)]; with the two walls supplied the other way round, the
    wall at x = 900, the farther one from the transmitter, has index 0. *)
Lemma cumulative_effect_supply_order (E : F64.Engine) :
  let from := at_ (dec 50 0) (dec 300 0) in
  let to := at_ (dec 1150 0) (dec 300 0) in
  let w1 := nth 0 defaultWalls diagonalWall in
  let w2 := nth 1 defaultWalls diagonalWall in
  map wall (findWallIntersections from to defaultWalls) = [w1; w2]
  /\ map wall (findWallIntersections from to [w2; w1]) = [w2; w1]
  /\ attenuate (L := F64.libm E) defaultConfig from to
       (findWallIntersections from to defaultWalls) 0 (dec 0 0)
     = dec 0 0 + attenuation w1
       + attenuation w2 * Math_pow (Libm := F64.libm E) (dec 11 1) (dec 1 0).
Proof. repeat split; vm_compute; reflexivity. Qed.

Lemma performTrilateration_terminates_witness :
  exists (k : nat) (result : Vector2D float),
    performTrilateration (equilateral (dec 577 1)) = Some result
    /\ (k <= 50)%nat
    /\ Run (equilateral (dec 577 1)) 50
         (initialGuess (equilateral (dec 577 1))) k result
    /\ (forall k' result',
          Run (equilateral (dec 577 1)) 50
            (initialGuess (equilateral (dec 577 1))) k' result' ->
          k' = k /\ result' = result).
Proof.
  apply (performTrilateration_terminates (equilateral (dec 577 1))).
  simpl. lia.
Defined.


End Binary64Facts.

(** ** Binary64: degenerate quotients *)

Section Binary64Degenerate.

Local Open Scope num_scope.

(** A binary64 number that is a zero (of either sign) or [NaN]. *)
Definition zeroOrNaN (v : float) : Prop :=
  match Prim2SF v with
  | S754_zero _ | S754_nan => True
  | _ => False
  end.

Definition isNaN (v : float) : Prop := Prim2SF v = S754_nan.

Lemma isNaN_zeroOrNaN (v : float) : isNaN v -> zeroOrNaN v.
Proof. unfold isNaN, zeroOrNaN. now intros ->. Qed.

Lemma sub_diag_zeroOrNaN (v : float) : zeroOrNaN (v - v).
Proof.
  unfold zeroOrNaN. simpl. rewrite sub_spec.
  destruct (Prim2SF v) as [s|s| |s m e]; unfold SF64sub, SFsub.
  - destruct s; exact I.
  - destruct s; exact I.
  - exact I.
  - cbv zeta. rewrite Z.sub_diag. exact I.
Qed.

Lemma mul_zeroOrNaN_l (a b : float) : zeroOrNaN a -> zeroOrNaN (a * b).
Proof.
  unfold zeroOrNaN. simpl. rewrite mul_spec.
  destruct (Prim2SF a); try contradiction; intros _;
    destruct (Prim2SF b); exact I.
Qed.


Lemma add_zeroOrNaN (a b : float) :
  zeroOrNaN a -> zeroOrNaN b -> zeroOrNaN (a + b).
Proof.
  unfold zeroOrNaN. simpl. rewrite add_spec.
  destruct (Prim2SF a) as [s| | |]; try contradiction; intros _;
    destruct (Prim2SF b) as [s'| | |]; try contradiction; intros _;
    try exact I.
  destruct s, s'; exact I.
Qed.

Lemma sqrt_zeroOrNaN (a : float) : zeroOrNaN a -> zeroOrNaN (Math_sqrt a).
Proof.
  unfold zeroOrNaN. simpl. rewrite sqrt_spec.
  destruct (Prim2SF a); try contradiction; intros _; exact I.
Qed.

Lemma div_zeroOrNaN_isNaN (a b : float) :
  zeroOrNaN a -> zeroOrNaN b -> isNaN (a / b).
Proof.
  unfold zeroOrNaN, isNaN. simpl. rewrite div_spec.
  destruct (Prim2SF a); try contradiction; intros _;
    destruct (Prim2SF b); try contradiction; intros _; reflexivity.
Qed.


Lemma abs_isNaN (a : float) : isNaN a -> isNaN (Math_abs a).
Proof. unfold isNaN. simpl. rewrite abs_spec. now intros ->. Qed.

Lemma mul_isNaN_r (a b : float) : isNaN b -> isNaN (a * b).
Proof.
  unfold isNaN. simpl. rewrite mul_spec. intros ->.
  destruct (Prim2SF a); reflexivity.
Qed.

Lemma add_isNaN_r (a b : float) : isNaN b -> isNaN (a + b).
Proof.
  unfold isNaN. simpl. rewrite add_spec. intros ->.
  destruct (Prim2SF a); reflexivity.
Qed.

Lemma isNaN_is_nan (a : float) : isNaN a -> PrimFloat.is_nan a = true.
Proof.
  unfold isNaN, PrimFloat.is_nan. rewrite eqb_spec. now intros ->.
Qed.


Lemma float_zero : (dec 0 0 : float) = 0%float.
Proof. vm_compute. reflexivity. Qed.





Lemma angleFactor_coincident (w : Wall float) (p : Vector2D float) :
  isNaN (angleFactor w p p).
Proof.
  unfold angleFactor, square. cbv zeta. cbn [x y].
  apply add_isNaN_r, mul_isNaN_r, abs_isNaN, div_zeroOrNaN_isNaN.
  - apply add_zeroOrNaN; apply mul_zeroOrNaN_l; apply sub_diag_zeroOrNaN.
  - apply mul_zeroOrNaN_l, sqrt_zeroOrNaN.
    apply add_zeroOrNaN; apply mul_zeroOrNaN_l; apply sub_diag_zeroOrNaN.
Qed.

Lemma float_one : (dec 1 0 : float) = 1%float.
Proof. vm_compute. reflexivity. Qed.

(** A quotient by a zero is an infinity or [NaN], never strictly between 0
    and 1. *)
Lemma div_by_zero_outside (n d : float) :
  (d === dec 0 0) = true -> strictlyInside (n / d) = false.
Proof.
  unfold strictlyInside. rewrite float_zero, float_one. simpl.
  rewrite eqb_spec, !ltb_spec, div_spec.
  change (Prim2SF 0) with (S754_zero false).
  change (Prim2SF 1) with (S754_finite false 4503599627370496 (-52)).
  destruct (Prim2SF d) as [s| | |s m e]; try discriminate.
  - intros _. destruct (Prim2SF n) as [s'|s'| |s' m' e']; simpl;
      try reflexivity; destruct (xorb s' s); reflexivity.
  - destruct s; discriminate.
  - destruct s; discriminate.
Qed.

(** In binary64 the test of a wall reports a crossing exactly when the
    parameters [t] and [u], as the program computes them with their
    roundings, both lie strictly between 0 and 1; when the determinant equals zero it reports none (the quotients
    are then infinite or [NaN]); a reported crossing carries the point at
    parameter [t] of the path and the wall itself; and over a list of walls
    the crossings are those of the walls that pass the test, in the order of
    the list. *)
Lemma intersect_iff_strictly_inside
  (p1 p2 : Vector2D float) (w : Wall float) (walls : list (Wall float)) :
  let t := param_t p1 p2 w in
  let u := param_u p1 p2 w in
  let inside (w : Wall float) :=
    strictlyInside (param_t p1 p2 w) && strictlyInside (param_u p1 p2 w) in
  (intersect p1 p2 w
   = if strictlyInside t && strictlyInside u
     then Some {| point := {| x := x p1 + t * (x p2 - x p1);
                              y := y p1 + t * (y p2 - y p1) |};
                  wall := w |}
     else None)
  /\ ((den p1 p2 w === dec 0 0) = true -> intersect p1 p2 w = None)
  /\ map wall (findWallIntersections p1 p2 walls) = filter inside walls.
Proof.
  intros t u inside.
  assert (Hcross : forall w0, crosses p1 p2 w0 = inside w0).
  { intros w0. unfold crosses, inside.
    destruct (den p1 p2 w0 === dec 0 0) eqn:E; [|reflexivity].
    assert (Ht : strictlyInside (param_t p1 p2 w0) = false).
    { unfold param_t. cbv zeta. apply div_by_zero_outside. exact E. }
    rewrite Ht. reflexivity. }
  split; [|split].
  - specialize (Hcross w). unfold inside in Hcross. fold t u in Hcross.
    rewrite <- Hcross. destruct (crosses p1 p2 w) eqn:E.
    + now apply intersect_Some_crosses.
    + now apply intersect_None_crosses.
  - intros E. unfold intersect. now rewrite E.
  - rewrite findWallIntersections_walls. apply filter_ext. exact Hcross.
Qed.

End Binary64Degenerate.

(** ** Binary64: the guard for a zero-length signal vector *)

Section Binary64Symmetry.

Local Open Scope num_scope.








End Binary64Symmetry.

Section Binary64Guard.

Local Open Scope num_scope.






End Binary64Guard.

(** ** Binary64: the clamp *)

Section Binary64Order.

Local Open Scope num_scope.

Lemma SFcompare_antisym (a b : spec_float) :
  SFcompare b a = option_map CompOpp (SFcompare a b).
Proof.
  destruct a as [s1|s1| |s1 m1 e1], b as [s2|s2| |s2 m2 e2]; simpl;
    try reflexivity;
    try (destruct s1; reflexivity); try (destruct s2; reflexivity);
    try (destruct s1, s2; reflexivity).
  assert (Hm : Pos.compare_cont Eq m2 m1 = CompOpp (Pos.compare_cont Eq m1 m2))
    by (rewrite (Pos.compare_cont_antisym m1 m2 Eq); reflexivity).
  destruct s1, s2; simpl; try reflexivity;
    rewrite (Z.compare_antisym e1 e2), Hm;
    destruct (e1 ?= e2)%Z; reflexivity.
Qed.

Lemma SFcompare_not_nan (a b : spec_float) :
  a <> S754_nan -> b <> S754_nan -> exists c, SFcompare a b = Some c.
Proof.
  intros Ha Hb.
  destruct a as [s1|s1| |s1 m1 e1], b as [s2|s2| |s2 m2 e2]; simpl;
    try contradiction; eexists; reflexivity.
Qed.

Lemma is_nan_false (v : float) :
  PrimFloat.is_nan v = false -> Prim2SF v <> S754_nan.
Proof.
  unfold PrimFloat.is_nan. rewrite eqb_spec. intros H E. rewrite E in H.
  discriminate.
Qed.

Lemma le_of_compare (a b : float) (c : comparison) :
  SFcompare (Prim2SF a) (Prim2SF b) = Some c ->
  (a <=? b) = match c with Gt => false | _ => true end
  /\ (a <? b) = match c with Lt => true | _ => false end
  /\ (b <=? a) = match c with Lt => false | _ => true end
  /\ (b <? a) = match c with Gt => true | _ => false end.
Proof.
  intros H. simpl. rewrite !leb_spec, !ltb_spec. unfold SFleb, SFltb.
  rewrite (SFcompare_antisym (Prim2SF a) (Prim2SF b)), H.
  destruct c; simpl; auto.
Qed.

Lemma compare_defined (a b : float) :
  PrimFloat.is_nan a = false -> PrimFloat.is_nan b = false ->
  exists c, SFcompare (Prim2SF a) (Prim2SF b) = Some c.
Proof.
  intros Ha Hb. apply SFcompare_not_nan; now apply is_nan_false.
Qed.

Lemma le_refl_not_nan (a : float) :
  PrimFloat.is_nan a = false -> (a <=? a) = true.
Proof.
  intros Ha. destruct (compare_defined a a Ha Ha) as [c Hc].
  destruct (le_of_compare a a c Hc) as (H1 & _ & H3 & _).
  destruct c; congruence.
Qed.

(** Of two numbers that are not [NaN], [Math.max] returns one of them that
    is not below the second, and [Math.min] one of them that is not above the
    second. *)
Lemma max_lower_bound (v c : float) :
  PrimFloat.is_nan v = false -> PrimFloat.is_nan c = false ->
  (F64.max v c = v \/ F64.max v c = c) /\ (c <=? F64.max v c) = true.
Proof.
  intros Hv Hc. unfold F64.max. rewrite Hv, Hc. cbn [orb].
  destruct (compare_defined v c Hv Hc) as [o Ho].
  destruct (le_of_compare v c o Ho) as (H1 & H2 & H3 & H4).
  simpl in H1, H2, H3, H4. rewrite H2, H4.
  pose proof (le_refl_not_nan c Hc) as Hcc. simpl in Hcc.
  destruct o.
  - destruct (PrimFloat.get_sign v); split; auto.
  - split; auto.
  - split; auto.
Qed.

Lemma min_upper_bound (v c : float) :
  PrimFloat.is_nan v = false -> PrimFloat.is_nan c = false ->
  (F64.min v c = v \/ F64.min v c = c) /\ (F64.min v c <=? c) = true.
Proof.
  intros Hv Hc. unfold F64.min. rewrite Hv, Hc. cbn [orb].
  destruct (compare_defined v c Hv Hc) as [o Ho].
  destruct (le_of_compare v c o Ho) as (H1 & H2 & H3 & H4).
  simpl in H1, H2, H3, H4. rewrite H2, H4.
  pose proof (le_refl_not_nan c Hc) as Hcc. simpl in Hcc.
  destruct o.
  - destruct (PrimFloat.get_sign v); split; auto.
  - split; auto.
  - split; auto.
Qed.

Lemma max_nan (v c : float) :
  PrimFloat.is_nan v = true -> PrimFloat.is_nan (F64.max v c) = true.
Proof. intros H. unfold F64.max. now rewrite H. Qed.

Lemma min_nan (v c : float) :
  PrimFloat.is_nan v = true -> PrimFloat.is_nan (F64.min v c) = true.
Proof. intros H. unfold F64.min. now rewrite H. Qed.

(** The clamp of the program in binary64: [NaN] for [NaN], and otherwise a
    number between the bounds. *)
Lemma clamp_binary64 (v : float) :
  if PrimFloat.is_nan v
  then PrimFloat.is_nan (clamp v (- dec 120 0) (- dec 30 0)) = true
  else (- dec 120 0 <=? clamp v (- dec 120 0) (- dec 30 0)) = true
       /\ (clamp v (- dec 120 0) (- dec 30 0) <=? - dec 30 0) = true.
Proof.
  unfold clamp.
  set (lo := - dec 120 0). set (hi := - dec 30 0).
  change (Math_min (Math_max v lo) hi) with (F64.min (F64.max v lo) hi).
  destruct (PrimFloat.is_nan v) eqn:Hv.
  - apply min_nan, max_nan, Hv.
  - assert (Hlo : PrimFloat.is_nan lo = false) by reflexivity.
    assert (Hhi : PrimFloat.is_nan hi = false) by reflexivity.
    assert (Hlh : (lo <=? hi) = true) by reflexivity.
    destruct (max_lower_bound v lo Hv Hlo) as [Hm Hle].
    assert (Hmn : PrimFloat.is_nan (F64.max v lo) = false)
      by (destruct Hm as [-> | ->]; assumption).
    destruct (min_upper_bound (F64.max v lo) hi Hmn Hhi) as [Hn Hge].
    split; [|exact Hge].
    destruct Hn as [-> | ->]; [exact Hle|exact Hlh].
Qed.

(** What [calculateRSSI] guarantees in binary64, for all inputs and whatever
    the engine's approximations: the result is [NaN] or lies in
    [-120, -30]. *)
Lemma calculateRSSI_binary64_range (E : F64.Engine) (cfg : Config float)
  (walls : list (Wall float)) (u1 u2 d : float)
  (transmitter : Radio float) (receiver : Device float) :
  let v := calculateRSSI (L := F64.libm E) cfg walls u1 u2 d transmitter receiver in
  PrimFloat.is_nan v = true
  \/ ((- dec 120 0 <=? v) = true /\ (v <=? - dec 30 0) = true).
Proof.
  unfold calculateRSSI. destruct (d <=? dec 0 0).
  - right. split; reflexivity.
  - cbv zeta.
    match goal with |- context [clamp ?r _ _] =>
      pose proof (clamp_binary64 r) as H; destruct (PrimFloat.is_nan r) end.
    + left. exact H.
    + right. exact H.
Qed.

Lemma SFcompare_refl (s : spec_float) :
  s <> S754_nan -> SFcompare s s = Some Eq.
Proof.
  destruct s as [b|b| |b m e]; intros H; simpl.
  - reflexivity.
  - now destruct b.
  - now elim H.
  - rewrite Z.compare_refl, Pos.compare_cont_refl. now destruct b.
Qed.

Lemma is_nan_true (v : float) : PrimFloat.is_nan v = true -> isNaN v.
Proof.
  unfold PrimFloat.is_nan, isNaN. rewrite eqb_spec. unfold SFeqb.
  destruct (Prim2SF v) as [b|b| |b m e] eqn:E; intros H; try reflexivity;
    rewrite SFcompare_refl in H; discriminate.
Qed.

Lemma le_true_not_nan (a b : float) :
  (a <=? b) = true -> PrimFloat.is_nan a = false /\ PrimFloat.is_nan b = false.
Proof.
  simpl. rewrite leb_spec. unfold SFleb. intros H.
  split.
  - destruct (PrimFloat.is_nan a) eqn:E; [|reflexivity].
    apply is_nan_true in E. unfold isNaN in E. rewrite E in H. discriminate.
  - destruct (PrimFloat.is_nan b) eqn:E; [|reflexivity].
    apply is_nan_true in E. unfold isNaN in E. rewrite E in H.
    destruct (Prim2SF a); discriminate.
Qed.

Lemma lt_true_not_nan (a b : float) :
  (a <? b) = true -> PrimFloat.is_nan a = false /\ PrimFloat.is_nan b = false.
Proof.
  simpl. rewrite ltb_spec. unfold SFltb. intros H.
  split.
  - destruct (PrimFloat.is_nan a) eqn:E; [|reflexivity].
    apply is_nan_true in E. unfold isNaN in E. rewrite E in H. discriminate.
  - destruct (PrimFloat.is_nan b) eqn:E; [|reflexivity].
    apply is_nan_true in E. unfold isNaN in E. rewrite E in H.
    destruct (Prim2SF a); discriminate.
Qed.

End Binary64Order.

(** ** Exact arithmetic: the log-distance law and the angle factor *)

Section ExactFacts.

Local Open Scope R_scope.

Lemma exact_dec (m : Z) (k : nat) : (dec m k : R) = IZR m / 10 ^ k.
Proof. reflexivity. Qed.

Lemma exact_integer (m : Z) : (dec m 0 : R) = IZR m.
Proof. rewrite exact_dec. simpl. field. Qed.

Lemma exact_le (a b : R) : (a <=? b)%num = true <-> a <= b.
Proof.
  simpl. unfold Exact.leb. destruct (Rle_dec a b); split; intros; auto;
    (discriminate || contradiction).
Qed.

Lemma exact_lt (a b : R) : (a <? b)%num = true <-> a < b.
Proof.
  simpl. unfold Exact.ltb. destruct (Rlt_dec a b); split; intros; auto;
    (discriminate || contradiction).
Qed.

(** The clamp in exact arithmetic. *)
Lemma exact_clamp_range (v lo hi : R) :
  lo <= hi -> lo <= clamp v lo hi <= hi.
Proof.
  intros H. unfold clamp. simpl. unfold Rmin, Rmax.
  destruct (Rle_dec v lo); destruct (Rle_dec _ hi); lra.
Qed.

Lemma exact_clamp_inside (v lo hi : R) :
  lo <= v <= hi -> clamp v lo hi = v.
Proof.
  intros H. unfold clamp. simpl. unfold Rmin, Rmax.
  destruct (Rle_dec v lo); destruct (Rle_dec _ hi); lra.
Qed.

Lemma exact_clamp_above (v lo hi : R) :
  lo <= hi -> hi <= v -> clamp v lo hi = hi.
Proof.
  intros H1 H2. unfold clamp. simpl. unfold Rmin, Rmax.
  destruct (Rle_dec v lo); destruct (Rle_dec _ hi); lra.
Qed.

(** In exact arithmetic the result of [calculateRSSI] lies in [-120, -30],
    for all inputs. *)
Lemma calculateRSSI_exact_range (cfg : Config R) (walls : list (Wall R))
  (u1 u2 d : R) (transmitter : Radio R) (receiver : Device R) :
  -120 <= calculateRSSI cfg walls u1 u2 d transmitter receiver <= -30.
Proof.
  unfold calculateRSSI. destruct (d <=? dec 0 0)%num.
  - rewrite exact_integer. simpl. lra.
  - cbv zeta. rewrite !exact_integer.
    match goal with |- context [clamp ?r ?lo ?hi] =>
      pose proof (exact_clamp_range r lo hi) as H;
      set (c := clamp r lo hi) in * end.
    simpl in H. lra.
Qed.

(** The unclamped signal strength of the log-distance law. *)
Definition logDistanceLaw (cfg : Config R) (d : R) : R :=
  txPower cfg - 10 * pathLossExponent cfg * (ln d / ln 10).

Lemma ln_10_pos : 0 < ln 10.
Proof. rewrite <- ln_1. apply ln_increasing; lra. Qed.

(** In exact arithmetic, without noise, and with the wall attenuation
    disabled or no wall at all, [calculateRSSI] at a positive distance is the
    clamp of the log-distance law. *)
Lemma exact_calculateRSSI_free_space (cfg : Config R) (walls : list (Wall R))
  (u1 u2 d : R) (transmitter : Radio R) (receiver : Device R) :
  enableNoise cfg = false ->
  enableWalls cfg = false \/ walls = [] ->
  0 < d ->
  calculateRSSI cfg walls u1 u2 d transmitter receiver
  = Rmin (Rmax (logDistanceLaw cfg d) (-120)) (-30).
Proof.
  intros Hn Hw Hd. unfold calculateRSSI. rewrite Hn.
  destruct (d <=? dec 0 0)%num eqn:E.
  { apply exact_le in E. rewrite exact_integer in E. lra. }
  assert (Hrssi :
    (if enableWalls cfg
     then (txPower cfg - dec 10 0 * pathLossExponent cfg * Math_log10 d
           - attenuate cfg transmitter receiver
               (findWallIntersections transmitter receiver walls) 0 (dec 0 0))%num
     else (txPower cfg - dec 10 0 * pathLossExponent cfg * Math_log10 d)%num)
    = logDistanceLaw cfg d).
  { unfold logDistanceLaw. rewrite !exact_integer.
    destruct Hw as [->| ->]; simpl; [reflexivity|].
    destruct (enableWalls cfg); simpl; lra. }
  cbv zeta. rewrite Hrssi. unfold clamp. rewrite !exact_integer. reflexivity.
Qed.

(** The inverse of the law, in exact arithmetic. *)
Lemma exact_estimateDistance_law (cfg : Config R) (d : R) :
  0 < d -> pathLossExponent cfg <> 0 ->
  estimateDistanceFromRSSI cfg (logDistanceLaw cfg d) = d.
Proof.
  intros Hd Hn. unfold estimateDistanceFromRSSI, logDistanceLaw.
  rewrite !exact_integer. simpl. unfold Rpower.
  pose proof ln_10_pos as H10.
  replace ((txPower cfg - (txPower cfg - 10 * pathLossExponent cfg * (ln d / ln 10)))
           / (10 * pathLossExponent cfg) * ln 10) with (ln d) by (field; lra).
  now apply exp_ln.
Qed.

(** The simulation parameters in their initial state, the first radio of the
    four-radio layout, and a device. *)
Definition exactConfig : Config R :=
  {| txPower := (- dec 59 0)%num; pathLossExponent := dec 27 1;
     enableNoise := false; noiseStdDev := dec 5 0;
     enableWalls := false; enableAngleEffect := true;
     enableCumulativeEffect := true |}.

Definition exactRadio : Radio R :=
  {| radio_position := {| x := dec 50 0; y := dec 50 0 |}; id := "R1";
     radio_radius := dec 10 0; label := "R1" |}.

Definition exactDevice (a b : R) : Device R :=
  {| device_position := {| x := a; y := b |}; device_radius := dec 10 0 |}.

(** C1, corrected: in exact arithmetic, for a distance [d > 0] whose
    signal strength by the log-distance law lies in [-120, -30] (so that the
    clamp leaves it as it is), and a path-loss exponent other than 0, the
    distance estimated from the synthesized signal strength is [d]. *)
Theorem round_trip_inside_range (cfg : Config R) (walls : list (Wall R))
  (u1 u2 d : R) (transmitter : Radio R) (receiver : Device R) :
  enableNoise cfg = false ->
  enableWalls cfg = false \/ walls = [] ->
  0 < d ->
  pathLossExponent cfg <> 0 ->
  -120 <= logDistanceLaw cfg d <= -30 ->
  estimateDistanceFromRSSI cfg
    (calculateRSSI cfg walls u1 u2 d transmitter receiver) = d.
Proof.
  intros Hn Hw Hd Hp Hr.
  rewrite exact_calculateRSSI_free_space by assumption.
  pose proof (exact_clamp_inside (logDistanceLaw cfg d) (-120) (-30) Hr) as Hc.
  unfold clamp in Hc. simpl in Hc. rewrite Hc.
  now apply exact_estimateDistance_law.
Qed.

Lemma ln_hundredth : ln (1 / 100) / ln 10 = -2.
Proof.
  pose proof ln_10_pos as H10.
  replace (1 / 100) with (/ (10 ^ 2)) by (simpl; field).
  rewrite ln_Rinv by (simpl; lra). rewrite ln_pow by lra. simpl. field. lra.
Qed.

(** The 27th power of [10 ^ (-29/27)] is [10 ^ (-29)], which is more than
    the 27th power of [0.08]. *)
Lemma power_above_8_hundredths : 8 / 100 < Rpower 10 (-29 / 27).
Proof.
  set (v := Rpower 10 (-29 / 27)).
  assert (Hv : 0 < v) by (unfold v, Rpower; apply exp_pos).
  assert (Hp : v ^ 27 = / 10 ^ 29).
  { rewrite <- (Rpower_pow 27 v Hv). unfold v. rewrite Rpower_mult.
    replace (-29 / 27 * INR 27) with (- INR 29) by (simpl; field).
    rewrite Rpower_Ropp, Rpower_pow by lra. reflexivity. }
  destruct (Rlt_le_dec (8 / 100) v) as [H|H]; [exact H|exfalso].
  assert (Hle : v ^ 27 <= (8 / 100) ^ 27) by (apply pow_incr; lra).
  unfold Rdiv in Hle. rewrite Rpow_mult_distr, pow_inv, Hp, !pow_IZR in Hle.
  assert (Hnum : IZR (8 ^ Z.of_nat 27) * IZR (10 ^ Z.of_nat 29)
                 < IZR (100 ^ Z.of_nat 27)).
  { rewrite <- mult_IZR. apply IZR_lt. vm_compute. reflexivity. }
  assert (HB : 0 < IZR (100 ^ Z.of_nat 27)) by (apply IZR_lt; vm_compute; reflexivity).
  assert (HC : 0 < IZR (10 ^ Z.of_nat 29)) by (apply IZR_lt; vm_compute; reflexivity).
  set (a := IZR (8 ^ Z.of_nat 27)) in *.
  set (b := IZR (100 ^ Z.of_nat 27)) in *.
  set (c := IZR (10 ^ Z.of_nat 29)) in *.
  apply (Rmult_le_compat_r (b * c)) in Hle; [|nra].
  replace (/ c * (b * c)) with b in Hle by (field; lra).
  replace (a * / b * (b * c)) with (a * c) in Hle by (field; lra).
  lra.
Qed.

(** C1, as stated, fails where the clamp is active.  With the initial
    parameters (-59 dBm at 1 m, exponent 2.7) and a true distance of 1 cm,
    the law gives -5 dBm, [calculateRSSI] returns the upper bound -30, and the
    distance estimated from it is [10 ^ (-29/27)], more than 8 times the true
    distance. *)
Lemma round_trip_fails_when_clamped :
  let d := 1 / 100 in
  0 < d
  /\ logDistanceLaw exactConfig d = -5
  /\ calculateRSSI exactConfig [] 0 0 d exactRadio (exactDevice 50.4 50) = -30
  /\ estimateDistanceFromRSSI exactConfig
       (calculateRSSI exactConfig [] 0 0 d exactRadio (exactDevice 50.4 50))
     = Rpower 10 (-29 / 27)
  /\ 8 * d
     < estimateDistanceFromRSSI exactConfig
         (calculateRSSI exactConfig [] 0 0 d exactRadio (exactDevice 50.4 50)).
Proof.
  intros d.
  assert (Hd : 0 < d) by (unfold d; lra).
  assert (Hlaw : logDistanceLaw exactConfig d = -5).
  { unfold logDistanceLaw, d. rewrite ln_hundredth. simpl. lra. }
  assert (Hrssi :
    calculateRSSI exactConfig [] 0 0 d exactRadio (exactDevice 50.4 50) = -30).
  { rewrite exact_calculateRSSI_free_space; auto.
    rewrite Hlaw. unfold Rmin, Rmax.
    destruct (Rle_dec (-5) (-120)); destruct (Rle_dec _ (-30)); lra. }
  assert (Hest :
    estimateDistanceFromRSSI exactConfig (-30) = Rpower 10 (-29 / 27)).
  { unfold estimateDistanceFromRSSI. simpl. f_equal; lra. }
  rewrite Hrssi, Hest.
  repeat split; auto.
  pose proof power_above_8_hundredths. unfold d. lra.
Qed.

(** A rational below or above a ratio of logarithms, by a comparison of
    integer powers. *)
Lemma ln_ratio_above (a b : Z) (p q : nat) :
  (1 < b)%Z -> (0 < a)%Z -> (b ^ Z.of_nat p < a ^ Z.of_nat q)%Z ->
  INR p < INR q * (ln (IZR a) / ln (IZR b)).
Proof.
  intros Hb Ha Hlt.
  assert (Hb' : 1 < IZR b) by (apply IZR_lt; exact Hb).
  assert (Ha' : 0 < IZR a) by (apply IZR_lt; exact Ha).
  assert (Hlnb : 0 < ln (IZR b)) by (rewrite <- ln_1; apply ln_increasing; lra).
  assert (H : INR p * ln (IZR b) < INR q * ln (IZR a)).
  { rewrite <- !ln_pow by lra. apply ln_increasing; [apply pow_lt; lra|].
    rewrite !pow_IZR. apply IZR_lt. exact Hlt. }
  apply (Rmult_lt_reg_r (ln (IZR b))); [exact Hlnb|].
  replace (INR q * (ln (IZR a) / ln (IZR b)) * ln (IZR b))
    with (INR q * ln (IZR a)) by (field; lra).
  exact H.
Qed.

Lemma ln_ratio_below (a b : Z) (p q : nat) :
  (1 < b)%Z -> (0 < a)%Z -> (a ^ Z.of_nat q < b ^ Z.of_nat p)%Z ->
  INR q * (ln (IZR a) / ln (IZR b)) < INR p.
Proof.
  intros Hb Ha Hlt.
  assert (Hb' : 1 < IZR b) by (apply IZR_lt; exact Hb).
  assert (Ha' : 0 < IZR a) by (apply IZR_lt; exact Ha).
  assert (Hlnb : 0 < ln (IZR b)) by (rewrite <- ln_1; apply ln_increasing; lra).
  assert (H : INR q * ln (IZR a) < INR p * ln (IZR b)).
  { rewrite <- !ln_pow by lra. apply ln_increasing; [apply pow_lt; lra|].
    rewrite !pow_IZR. apply IZR_lt. exact Hlt. }
  apply (Rmult_lt_reg_r (ln (IZR b))); [exact Hlnb|].
  replace (INR q * (ln (IZR a) / ln (IZR b)) * ln (IZR b))
    with (INR q * ln (IZR a)) by (field; lra).
  exact H.
Qed.

Lemma log10_5_bounds : 65 / 93 < ln 5 / ln 10 < 137 / 196.
Proof.
  pose proof (ln_ratio_above 5 10 65 93 eq_refl eq_refl) as Hlo.
  pose proof (ln_ratio_below 5 10 137 196 eq_refl eq_refl) as Hhi.
  rewrite !INR_IZR_INZ in Hlo, Hhi. simpl Z.of_nat in Hlo, Hhi.
  assert (H1 : (10 ^ 65 < 5 ^ 93)%Z) by (vm_compute; reflexivity).
  assert (H2 : (5 ^ 196 < 10 ^ 137)%Z) by (vm_compute; reflexivity).
  specialize (Hlo H1). specialize (Hhi H2). lra.
Qed.

Lemma round_trip_inside_range_witness :
  estimateDistanceFromRSSI exactConfig
    (calculateRSSI exactConfig [] 0 0 5 exactRadio (exactDevice 250 50)) = 5.
Proof.
  apply round_trip_inside_range.
  - reflexivity.
  - right. reflexivity.
  - lra.
  - simpl. lra.
  - pose proof log10_5_bounds. unfold logDistanceLaw. simpl. lra.
Defined.

(** The angle factor in exact arithmetic, from the signal vector [(sx, sy)]
    and the wall normal [(nx, ny)]. *)
Lemma exact_angleFactor (w : Wall R) (transmitter receiver : Vector2D R) :
  let sx := x receiver - x transmitter in
  let sy := y receiver - y transmitter in
  let nx := - (y (end_ w) - y (start w)) in
  let ny := x (end_ w) - x (start w) in
  angleFactor w transmitter receiver
  = 1 / 2 + 1 / 2 * Rabs ((sx * nx + sy * ny)
                           / (sqrt (sx * sx + sy * sy) * sqrt (nx * nx + ny * ny))).
Proof.
  intros sx sy nx ny. unfold angleFactor, square. simpl.
  fold sx sy nx ny. f_equal; [lra|]. f_equal. lra.
Qed.

Lemma sqrt_sum_squares_pos (a b : R) :
  a <> 0 \/ b <> 0 -> 0 < sqrt (a * a + b * b).
Proof.
  intros H. apply sqrt_lt_R0. destruct H; nra.
Qed.

Lemma cauchy_abs (a b c d : R) :
  Rabs (a * c + b * d) <= sqrt (a * a + b * b) * sqrt (c * c + d * d).
Proof.
  apply Rabs_le. split.
  - pose proof (sqrt_cauchy (- a) (- b) c d) as H. unfold Rsqr in H.
    replace (- a * - a + - b * - b) with (a * a + b * b) in H by ring. lra.
  - pose proof (sqrt_cauchy a b c d) as H. unfold Rsqr in H. exact H.
Qed.

(** C7, corrected: in exact arithmetic, for a nonzero signal vector and a
    nonzero wall vector, the angle factor lies in [0.5, 1.0], and it is 1.0
    when the signal vector is a multiple of the wall normal. *)
Theorem angle_factor_exact_bounds (w : Wall R) (transmitter receiver : Vector2D R) :
  let sx := x receiver - x transmitter in
  let sy := y receiver - y transmitter in
  let nx := - (y (end_ w) - y (start w)) in
  let ny := x (end_ w) - x (start w) in
  sx <> 0 \/ sy <> 0 ->
  nx <> 0 \/ ny <> 0 ->
  1 / 2 <= angleFactor w transmitter receiver <= 1
  /\ (forall k, sx = k * nx -> sy = k * ny ->
      angleFactor w transmitter receiver = 1).
Proof.
  intros sx sy nx ny Hs Hn.
  rewrite (exact_angleFactor w transmitter receiver). fold sx sy nx ny.
  pose proof (sqrt_sum_squares_pos sx sy Hs) as HS.
  pose proof (sqrt_sum_squares_pos nx ny Hn) as HN.
  set (mS := sqrt (sx * sx + sy * sy)) in *.
  set (mN := sqrt (nx * nx + ny * ny)) in *.
  assert (Hpos : 0 < mS * mN) by (apply Rmult_lt_0_compat; assumption).
  assert (Habs : Rabs ((sx * nx + sy * ny) / (mS * mN))
                 = Rabs (sx * nx + sy * ny) / (mS * mN)).
  { unfold Rdiv. rewrite Rabs_mult, (Rabs_right (/ (mS * mN))); [reflexivity|].
    apply Rle_ge, Rlt_le, Rinv_0_lt_compat, Hpos. }
  split.
  - rewrite Habs. pose proof (cauchy_abs sx sy nx ny) as Hc. fold mS mN in Hc.
    pose proof (Rabs_pos (sx * nx + sy * ny)) as H0.
    assert (0 <= Rabs (sx * nx + sy * ny) / (mS * mN) <= 1).
    { split.
      - apply Rmult_le_pos; [exact H0|]. apply Rlt_le, Rinv_0_lt_compat, Hpos.
      - apply (Rmult_le_reg_r (mS * mN)); [exact Hpos|].
        replace (Rabs (sx * nx + sy * ny) / (mS * mN) * (mS * mN))
          with (Rabs (sx * nx + sy * ny)) by (field; lra).
        lra. }
    lra.
  - intros k Hx Hy. rewrite Habs.
    assert (Hk : k <> 0).
    { intros ->. destruct Hs as [Hs|Hs]; apply Hs; lra. }
    assert (HmN : mN * mN = nx * nx + ny * ny).
    { unfold mN. apply sqrt_sqrt. nra. }
    assert (HmS : mS = Rabs k * mN).
    { unfold mS. rewrite Hx, Hy.
      replace (k * nx * (k * nx) + k * ny * (k * ny))
        with (k * k * (nx * nx + ny * ny)) by ring.
      rewrite sqrt_mult by nra. fold mN. f_equal.
      fold (Rsqr k). apply sqrt_Rsqr_abs. }
    assert (Hdot : Rabs (sx * nx + sy * ny) = Rabs k * (mN * mN)).
    { rewrite Hx, Hy, HmN.
      replace (k * nx * nx + k * ny * ny) with (k * (nx * nx + ny * ny)) by ring.
      rewrite Rabs_mult. f_equal. apply Rabs_right. nra. }
    rewrite Hdot, HmS.
    assert (Hak : 0 < Rabs k) by (apply Rabs_pos_lt; exact Hk).
    replace (Rabs k * (mN * mN) / (Rabs k * mN * mN)) with 1 by (field; lra).
    lra.
Qed.

Lemma angle_factor_exact_bounds_witness :
  let w := {| wall_id := "d"; start := {| x := 0; y := 0 |};
              end_ := {| x := 2; y := 2 |}; material := concrete;
              attenuation := 10; color := 0x888888 |} in
  let transmitter := {| x := 2; y := 0 |} in
  let receiver := {| x := 0; y := 2 |} in
  1 / 2 <= angleFactor w transmitter receiver <= 1
  /\ angleFactor w transmitter receiver = 1.
Proof.
  intros w transmitter receiver.
  destruct (angle_factor_exact_bounds w transmitter receiver) as [H1 H2].
  - simpl. left. lra.
  - simpl. left. lra.
  - split; [exact H1|]. apply (H2 1); simpl; lra.
Defined.

End ExactFacts.

(** ** Exact arithmetic: the open segments *)

Section ExactOpenSegments.

Local Open Scope R_scope.












End ExactOpenSegments.

(** ** The clamped log-distance law *)

Section ClampedLaw.

Local Open Scope num_scope.

(** [r] is [v] clamped to [lo, hi], in binary64: [NaN] for [NaN], the bound
    that [v] is beyond, and [v] itself between the bounds. *)
Definition clampedTo (lo hi v r : float) : Prop :=
  if PrimFloat.is_nan v then PrimFloat.is_nan r = true
  else if v <? lo then r = lo
  else if hi <? v then r = hi
  else r = v.

Lemma compare_Eq_finite (a b : float) (s : bool) (m : positive) (e : Z) :
  Prim2SF b = S754_finite s m e ->
  SFcompare (Prim2SF a) (Prim2SF b) = Some Eq -> a = b.
Proof.
  intros Hb H. apply Prim2SF_inj. rewrite Hb in *.
  destruct (Prim2SF a) as [sa|sa| |sa ma ea]; simpl in H;
    try discriminate; try (destruct sa; discriminate);
    try (destruct s; discriminate).
  destruct sa, s; try discriminate.
  - destruct (Z.compare_spec ea e) as [He|He|He]; try discriminate.
    injection H as H. destruct (Pos.compare_cont Eq ma m) eqn:Hc;
      try discriminate.
    apply Pos.compare_eq in Hc. now subst.
  - destruct (Z.compare_spec ea e) as [He|He|He]; try discriminate.
    injection H as H. apply Pos.compare_eq in H. now subst.
Qed.

Lemma clamp_cases (v lo hi : float) (sl sh : bool) (ml mh : positive)
  (el eh : Z) :
  Prim2SF lo = S754_finite sl ml el ->
  Prim2SF hi = S754_finite sh mh eh ->
  (lo <? hi) = true ->
  clampedTo lo hi v (clamp v lo hi).
Proof.
  intros Hlo Hhi Hlt. unfold clampedTo, clamp.
  change (Math_min (Math_max v lo) hi) with (F64.min (F64.max v lo) hi).
  destruct (lt_true_not_nan _ _ Hlt) as [Hnl Hnh].
  destruct (PrimFloat.is_nan v) eqn:Hv; [apply min_nan, max_nan, Hv|].
  destruct (compare_defined lo hi Hnl Hnh) as [clh Hclh].
  destruct (le_of_compare lo hi clh Hclh) as (_ & Hlh & _ & Hhl).
  assert (clh = Lt) by (destruct clh; simpl in *; congruence). subst clh.
  simpl in Hhl, Hlh.
  destruct (compare_defined v lo Hv Hnl) as [c Hc].
  destruct (le_of_compare v lo c Hc) as (_ & Hvl & _ & Hlv).
  simpl in Hvl, Hlv.
  assert (Hmax : F64.max v lo = if v <? lo then lo else v).
  { unfold F64.max. rewrite Hv, Hnl. cbn [orb]. simpl. rewrite Hvl, Hlv.
    destruct c; try reflexivity.
    rewrite (compare_Eq_finite v lo sl ml el Hlo Hc).
    now destruct (PrimFloat.get_sign lo). }
  rewrite Hmax. simpl. rewrite Hvl.
  destruct c.
  - (* v = lo *)
    assert (Hveq : v = lo) by (eapply compare_Eq_finite; eauto). subst v.
    simpl in Hhl. rewrite Hhl.
    unfold F64.min. rewrite Hnl, Hnh. cbn [orb]. simpl in Hlh. now rewrite Hlh.
  - (* v < lo *)
    unfold F64.min. rewrite Hnl, Hnh. cbn [orb]. simpl in Hlh. now rewrite Hlh.
  - (* v > lo *)
    destruct (compare_defined v hi Hv Hnh) as [c' Hc'].
    destruct (le_of_compare v hi c' Hc') as (_ & Hvh & _ & Hhv).
    simpl in Hvh, Hhv. rewrite Hhv.
    unfold F64.min. rewrite Hv, Hnh. cbn [orb]. rewrite Hvh, Hhv.
    destruct c'; try reflexivity.
    rewrite (compare_Eq_finite v hi sh mh eh Hhi Hc').
    now destruct (PrimFloat.get_sign hi).
Qed.

Lemma positive_passes_test (d : float) :
  (d >? dec 0 0) = true -> (d <=? dec 0 0) = false.
Proof.
  intros H. destruct (lt_true_not_nan _ _ H) as [H0 Hd].
  destruct (compare_defined (dec 0 0) d H0 Hd) as [c Hc].
  destruct (le_of_compare (dec 0 0) d c Hc) as (_ & H2 & H3 & _).
  rewrite H3. rewrite H2 in H. now destruct c.
Qed.

(** The unclamped signal strength of the log-distance law, as the program
    computes it. *)
Definition lawOf (E : F64.Engine) (cfg : Config float) (d : float) : float :=
  txPower cfg
  - dec 10 0 * pathLossExponent cfg * Math_log10 (Libm := F64.libm E) d.

(** The binary64 number nearest to [log10(5)], and the numbers next to
    it. *)
Definition log10_5_nearest : list float :=
  [0x1.65df657b04300p-1%float; 0x1.65df657b04301p-1%float;
   0x1.65df657b04302p-1%float].

(** C5: with the wall attenuation and the noise disabled and a distance
    above 0, [calculateRSSI] returns [txPower - 10 * n * log10(distanceMeters)]
    clamped to [-120, -30]: in binary64, for all inputs and every engine, the
    result is -120 when that value is below -120, -30 when it is above -30,
    the value itself in between ([NaN] when it is [NaN]).  With -59 dBm at
    1 m, the exponent 2.7 and a distance of 5 m the result is within 0.005 of
    -77.87: in binary64 for every engine whose [Math.log10(5)] is the
    binary64 number nearest to [log10(5)] or next to it, and in exact
    arithmetic. *)
Theorem free_space_is_clamped_law :
  (forall (E : F64.Engine) (cfg : Config float) (walls : list (Wall float))
          (u1 u2 d : float) (transmitter : Radio float)
          (receiver : Device float),
      enableWalls cfg = false ->
      enableNoise cfg = false ->
      (d >? dec 0 0) = true ->
      clampedTo (- dec 120 0) (- dec 30 0) (lawOf E cfg d)
        (calculateRSSI (L := F64.libm E) cfg walls u1 u2 d transmitter
           receiver))
  /\ (forall (E : F64.Engine) (cfg : Config float) (walls : list (Wall float))
             (u1 u2 : float) (transmitter : Radio float)
             (receiver : Device float),
      enableWalls cfg = false ->
      enableNoise cfg = false ->
      txPower cfg = - dec 59 0 ->
      pathLossExponent cfg = dec 27 1 ->
      In (F64.engine_log10 E (dec 5 0)) log10_5_nearest ->
      let r := calculateRSSI (L := F64.libm E) cfg walls u1 u2 (dec 5 0)
                 transmitter receiver in
      (- dec 77875 3 <=? r) = true /\ (r <=? - dec 77865 3) = true)
  /\ (forall (cfg : Config R) (walls : list (Wall R)) (u1 u2 : R)
             (transmitter : Radio R) (receiver : Device R),
      enableWalls cfg = false ->
      enableNoise cfg = false ->
      txPower cfg = (-59)%R ->
      pathLossExponent cfg = 2.7%R ->
      (Rabs (calculateRSSI cfg walls u1 u2 5%R transmitter receiver - -77.87)
       <= 0.005)%R).
Proof.
  split; [|split].
  - intros E cfg walls u1 u2 d transmitter receiver Hw Hn Hd.
    rewrite calculateRSSI_free_space by assumption.
    rewrite (positive_passes_test d Hd).
    apply (clamp_cases _ _ _ true true 8444249301319680 8444249301319680
             (-46) (-48)); vm_compute; reflexivity.
  - intros E cfg walls u1 u2 transmitter receiver Hw Hn Ht Hp He r. subst r.
    rewrite calculateRSSI_free_space by assumption.
    rewrite Ht, Hp.
    assert (H5 : (dec 5 0 : float) = 5%float) by (vm_compute; reflexivity).
    rewrite H5 in *.
    assert (Hl : Math_log10 (Libm := F64.libm E) 5%float
                 = F64.engine_log10 E 5%float) by reflexivity.
    rewrite Hl.
    destruct He as [He|[He|[He|[]]]]; rewrite <- He;
      split; vm_compute; reflexivity.
  - intros cfg walls u1 u2 transmitter receiver Hw Hn Ht Hp.
    rewrite exact_calculateRSSI_free_space by (auto; lra).
    unfold logDistanceLaw. rewrite Ht, Hp.
    pose proof log10_5_bounds as [Hlo Hhi].
    pose proof (exact_clamp_inside (-59 - 10 * 2.7 * (ln 5 / ln 10))%R
                  (-120)%R (-30)%R) as Hc.
    unfold clamp in Hc. simpl in Hc. rewrite Hc by lra.
    apply Rabs_le. lra.
Qed.

Lemma free_space_is_clamped_law_witness :
  let E := {| F64.engine_log10 := fun _ => 0x1.65df657b04301p-1%float;
              F64.engine_log := fun v => v; F64.engine_cos := fun v => v;
              F64.engine_pow := fun b _ => b |} in
  let cfg := {| txPower := - dec 59 0; pathLossExponent := dec 27 1;
                enableNoise := false; noiseStdDev := dec 5 0;
                enableWalls := false; enableAngleEffect := true;
                enableCumulativeEffect := true |} in
  let r := calculateRSSI (L := F64.libm E) cfg Scenario.defaultWalls
             (dec 0 0) (dec 0 0) (dec 5 0)
             (Scenario.beacon "R1" (dec 50 0) (dec 50 0))
             (Scenario.phone (dec 250 0) (dec 50 0)) in
  clampedTo (- dec 120 0) (- dec 30 0) (lawOf E cfg (dec 5 0)) r
  /\ (- dec 77875 3 <=? r) = true /\ (r <=? - dec 77865 3) = true
  /\ (Rabs (calculateRSSI exactConfig [] 0%R 0%R 5%R exactRadio
              (exactDevice 250%R 50%R) - -77.87) <= 0.005)%R.
Proof.
  intros E cfg r.
  destruct free_space_is_clamped_law as (H1 & H2 & H3).
  split; [|split; [|split]].
  - apply H1; reflexivity.
  - apply (H2 E cfg); try reflexivity. right. left. reflexivity.
  - apply (H2 E cfg); try reflexivity. right. left. reflexivity.
  - apply H3; simpl; (reflexivity || lra).
Defined.

End ClampedLaw.

(** * Further properties: the scene and the solver *)

(** ** The update of the measurements *)

Section MeasurementFacts.

Context {num : Type} {A : Arith num} {L : Libm num}.
Local Open Scope num_scope.

(** [calculateRSSI] reads its two random samples only when the noise is
    enabled and the distance passes the first test. *)
Lemma calculateRSSI_random_unread (cfg : Config num) (walls0 : list (Wall num))
  (u1 u2 u1' u2' d : num) (transmitter : Radio num) (receiver : Device num) :
  randomCalls cfg d = 0%nat ->
  calculateRSSI cfg walls0 u1 u2 d transmitter receiver
  = calculateRSSI cfg walls0 u1' u2' d transmitter receiver.
Proof.
  unfold randomCalls, calculateRSSI.
  destruct (d <=? dec 0 0); [reflexivity|].
  destruct (enableNoise cfg); [discriminate|reflexivity].
Qed.

Lemma newMeasurement_trueDistance (cfg : Config num) (walls0 : list (Wall num))
  (u1 u2 : num) (device0 : Device num) (radio0 : Radio num) :
  trueDistance (newMeasurement cfg walls0 u1 u2 device0 radio0)
  = distance radio0 device0 / PIXELS_PER_METER.
Proof. reflexivity. Qed.

Lemma randomCalls_silent (cfg : Config num) (d : num) :
  enableNoise cfg = false -> randomCalls cfg d = 0%nat.
Proof.
  intros H. unfold randomCalls. rewrite H. now destruct (d <=? dec 0 0).
Qed.

Lemma randomCalls_le_2 (cfg : Config num) (d : num) :
  (randomCalls cfg d <= 2)%nat.
Proof.
  unfold randomCalls. destruct (d <=? dec 0 0); [lia|].
  destruct (enableNoise cfg); lia.
Qed.

Lemma newMeasurements_cons (cfg : Config num) (walls0 : list (Wall num))
  (random : nat -> num) (k : nat) (device0 : Device num)
  (r : Radio num) (rs : list (Radio num)) :
  let m := newMeasurement cfg walls0 (random k) (random (S k)) device0 r in
  let rest := newMeasurements cfg walls0 random
                (k + randomCalls cfg (trueDistance m)) device0 rs in
  newMeasurements cfg walls0 random k device0 (r :: rs)
  = (m :: fst rest, snd rest).
Proof.
  intros m rest. subst m rest. cbn [newMeasurements].
  now destruct (newMeasurements cfg walls0 random _ device0 rs).
Qed.

Lemma newMeasurements_shape (cfg : Config num) (walls0 : list (Wall num))
  (random : nat -> num) (device0 : Device num) (rs : list (Radio num)) :
  forall k,
    map radio (fst (newMeasurements cfg walls0 random k device0 rs)) = rs
    /\ List.length (fst (newMeasurements cfg walls0 random k device0 rs))
       = List.length rs
    /\ Forall (fun m => exists j,
                 m = newMeasurement cfg walls0 (random j) (random (S j))
                       device0 (radio m))
         (fst (newMeasurements cfg walls0 random k device0 rs))
    /\ (k <= snd (newMeasurements cfg walls0 random k device0 rs)
        <= k + 2 * List.length rs)%nat.
Proof.
  induction rs as [|r rs IH]; intros k.
  - simpl. repeat split; auto. lia.
  - rewrite newMeasurements_cons. cbv zeta.
    set (m := newMeasurement cfg walls0 (random k) (random (S k)) device0 r).
    pose proof (randomCalls_le_2 cfg (trueDistance m)) as Hc.
    destruct (IH (k + randomCalls cfg (trueDistance m))%nat)
      as (Hm & Hl & Hf & Hk).
    cbn [fst snd map List.length].
    split; [now rewrite Hm|]. split; [now rewrite Hl|].
    split; [|lia].
    constructor; [|exact Hf]. exists k. reflexivity.
Qed.

(** X1: the update gives one measurement per radio, in the order of the radios,
    each computed by [newMeasurement] for its radio from two consecutive
    results of [Math.random()]; it makes at most two calls of
    [Math.random()] per radio. *)
Theorem newMeasurements_per_radio (cfg : Config num) (walls0 : list (Wall num))
  (random : nat -> num) (k : nat) (device0 : Device num)
  (rs : list (Radio num)) :
  map radio (fst (newMeasurements cfg walls0 random k device0 rs)) = rs
  /\ Forall (fun m => exists j,
                m = newMeasurement cfg walls0 (random j) (random (S j))
                      device0 (radio m))
        (fst (newMeasurements cfg walls0 random k device0 rs))
  /\ (k <= snd (newMeasurements cfg walls0 random k device0 rs)
       <= k + 2 * List.length rs)%nat.
Proof.
  destruct (newMeasurements_shape cfg walls0 random device0 rs k)
    as (H1 & _ & H3 & H4).
  auto.
Qed.

(** X2: with the noise disabled, the update makes no call of [Math.random()]
    and its measurements do not depend on the random source: two updates of
    the same scene give the same measurements and the same estimate. *)
Theorem update_without_noise_is_repeatable (cfg : Config num)
  (walls0 : list (Wall num)) (random random' : nat -> num) (k k' : nat)
  (minRSSI : num) (device0 : Device num) (rs : list (Radio num)) :
  enableNoise cfg = false ->
  newMeasurements cfg walls0 random k device0 rs
  = (fst (newMeasurements cfg walls0 random' k' device0 rs), k)
  /\ newEstimatedPos cfg walls0 random k minRSSI device0 rs
     = newEstimatedPos cfg walls0 random' k' minRSSI device0 rs.
Proof.
  intros Hn.
  assert (H : forall k k',
    newMeasurements cfg walls0 random k device0 rs
    = (fst (newMeasurements cfg walls0 random' k' device0 rs), k)).
  { clear k k'. induction rs as [|r rs IH]; intros k k'; [reflexivity|].
    rewrite !newMeasurements_cons. cbv zeta.
    rewrite !randomCalls_silent by exact Hn. rewrite !Nat.add_0_r.
    rewrite (IH k k'). cbn [fst snd]. f_equal. f_equal.
    unfold newMeasurement. f_equal.
    - apply calculateRSSI_random_unread, randomCalls_silent, Hn.
    - f_equal. apply calculateRSSI_random_unread, randomCalls_silent, Hn. }
  split; [apply H|].
  unfold newEstimatedPos. now rewrite (H k k').
Qed.

(** X3: the estimate of an update is missing exactly when fewer than 3
    measurements are above the detection threshold; in particular whenever
    the scene has fewer than 3 radios. *)
Theorem newEstimatedPos_needs_three (cfg : Config num)
  (walls0 : list (Wall num)) (random : nat -> num) (k : nat)
  (minRSSI : num) (device0 : Device num) (rs : list (Radio num)) :
  let heard :=
    activeMeasurements minRSSI
      (fst (newMeasurements cfg walls0 random k device0 rs)) in
  (newEstimatedPos cfg walls0 random k minRSSI device0 rs = None
   <-> (List.length heard < 3)%nat)
  /\ (List.length heard <= List.length rs)%nat
  /\ ((List.length rs < 3)%nat ->
      newEstimatedPos cfg walls0 random k minRSSI device0 rs = None).
Proof.
  intros heard.
  assert (Hle : (List.length heard <= List.length rs)%nat).
  { unfold heard, activeMeasurements.
    rewrite <- (proj1 (proj2 (newMeasurements_shape cfg walls0 random
                                 device0 rs k))).
    apply filter_length_le. }
  assert (Hiff : newEstimatedPos cfg walls0 random k minRSSI device0 rs = None
                 <-> (List.length heard < 3)%nat).
  { unfold newEstimatedPos. fold heard. unfold performTrilateration.
    destruct (Nat.ltb_spec (List.length heard) 3); split; intros;
      (reflexivity || discriminate || lia). }
  split; [exact Hiff|]. split; [exact Hle|].
  intros H. apply Hiff. lia.
Qed.

End MeasurementFacts.

(** Three radios at 1 m from the device, with the default walls and none of
    them crossed: every measurement is above the threshold and the estimate
    is computed. *)
Lemma update_without_noise_is_repeatable_witness :
  let rs := [ Scenario.beacon "R1" (dec 140 0) (dec 100 0);
              Scenario.beacon "R2" (dec 100 0) (dec 140 0);
              Scenario.beacon "R3" (dec 60 0) (dec 100 0) ] in
  let device0 := Scenario.phone (dec 100 0) (dec 100 0) in
  let update random k :=
    newMeasurements (L := F64.libm sampleEngine) Scenario.defaultConfig
      Scenario.defaultWalls random k device0 rs in
  let estimate random k :=
    newEstimatedPos (L := F64.libm sampleEngine) Scenario.defaultConfig
      Scenario.defaultWalls random k (- dec 100 0)%num device0 rs in
  update (fun _ => dec 0 0) 0%nat
  = (fst (update (fun _ => dec 5 1) 7%nat), 0%nat)
  /\ estimate (fun _ => dec 0 0) 0%nat = estimate (fun _ => dec 5 1) 7%nat
  /\ map rssi (activeMeasurements (- dec 100 0)%num
                 (fst (update (fun _ => dec 0 0) 0%nat)))
     = [(- dec 59 0)%num; (- dec 59 0)%num; (- dec 59 0)%num]
  /\ estimate (fun _ => dec 0 0) 0%nat <> None.
Proof.
  intros rs device0 update estimate.
  destruct (update_without_noise_is_repeatable (L := F64.libm sampleEngine)
              Scenario.defaultConfig Scenario.defaultWalls
              (fun _ => dec 0 0) (fun _ => dec 5 1) 0 7 (- dec 100 0)%num
              device0 rs eq_refl) as [Hm He].
  split; [exact Hm|]. split; [exact He|]. split.
  - vm_compute. reflexivity.
  - vm_compute. discriminate.
Defined.

(** ** The solver's rows, for any numbers *)

Section RowFacts.

Context {num : Type} {A : Arith num}.
Local Open Scope num_scope.

(** X4: the rows of [J] and the entries of [r] are built in step: there is one
    of each for every measurement that is not skipped, in the order of the
    measurements, so that [r[i]] is defined for every row [J[i]], and the
    row count is at most the number of measurements. *)
Theorem residuals_in_step (pos : Vector2D num) (ms : list (Measurement num)) :
  List.length (fst (residuals pos ms)) = List.length (snd (residuals pos ms))
  /\ List.length (fst (residuals pos ms))
     = List.length (filter (usable pos) ms)
  /\ snd (residuals pos ms)
     = map (fun m =>
              distance pos {| x := x (radio m); y := y (radio m) |}
              - estimatedDistance m * PIXELS_PER_METER)
         (filter (usable pos) ms)
  /\ (usableRows ms pos <= List.length ms)%nat.
Proof. exact (residuals_shape pos ms). Qed.

End RowFacts.

(** ** The mouse, for any numbers *)

Section MouseFacts.

Context {num : Type} {A : Arith num}.
Local Open Scope num_scope.

Lemma moveRadio_spec (target : Radio num) (newPos : Vector2D num)
  (rs : list (Radio num)) :
  map id (moveRadio target newPos rs) = map id rs
  /\ map radio_radius (moveRadio target newPos rs) = map radio_radius rs
  /\ map label (moveRadio target newPos rs) = map label rs
  /\ map (fun r : Radio num => x r) (moveRadio target newPos rs)
     = map (fun r => if String.eqb (id r) (id target) then x newPos else x r) rs
  /\ map (fun r : Radio num => y r) (moveRadio target newPos rs)
     = map (fun r => if String.eqb (id r) (id target) then y newPos else y r) rs.
Proof.
  unfold moveRadio. rewrite !map_map.
  repeat split; apply map_ext; intros r;
    destruct (String.eqb (id r) (id target)); reflexivity.
Qed.

(** X5: dragging a radio: a mouse move while a radio is held (outside the wall
    drawing) puts every radio that has the id of the held one at the mouse
    position plus the grab offset, and changes nothing else: the radios keep
    their number, order, ids, radii and labels, the radios with another id
    keep their position, and the walls, the device and the interaction state
    are as before. *)
Theorem drag_radio_moves_only_that_radio (mousePos offset : Vector2D num)
  (target : Radio num) (rs : list (Radio num)) (ws : list (Wall num))
  (d : Device num) (pending : option (Vector2D num * Vector2D num)) :
  let s := {| radios := rs; walls := ws; device := d; drawWallMode := false;
              tempWallStart := pending;
              dragging := Some (DragRadio target offset) |} in
  let s' := handleMouseMove mousePos s in
  let newPos := {| x := x mousePos + x offset; y := y mousePos + y offset |} in
  map id (radios s') = map id rs
  /\ map radio_radius (radios s') = map radio_radius rs
  /\ map label (radios s') = map label rs
  /\ map (fun r : Radio num => x r) (radios s')
     = map (fun r => if String.eqb (id r) (id target) then x newPos else x r) rs
  /\ map (fun r : Radio num => y r) (radios s')
     = map (fun r => if String.eqb (id r) (id target) then y newPos else y r) rs
  /\ walls s' = ws /\ device s' = d
  /\ drawWallMode s' = false /\ tempWallStart s' = pending
  /\ dragging s' = Some (DragRadio target offset).
Proof.
  intros s s' newPos.
  destruct (moveRadio_spec target newPos rs) as (H1 & H2 & H3 & H4 & H5).
  subst s s'. unfold handleMouseMove. cbn.
  repeat split; assumption.
Qed.

(** X6: releasing the mouse always ends the drag and never changes the
    radios or the device.  In the wall drawing, with a wall begun, it leaves
    the drawing and forgets the pending start, and it adds one wall at the
    end of the list when the distance from the pending start to the mouse
    passes the test [> 10] (a drywall wall between the two, with the
    attenuation 3 and the colour of drywall) and none when it does not.
    Otherwise the walls, the drawing mode and the pending start stay as they
    are. *)
Theorem mouse_up_adds_at_most_one_wall (end0 : Vector2D num) (newId : string)
  (s : Scene num) :
  let s' := handleMouseUp end0 newId s in
  dragging s' = None
  /\ radios s' = radios s /\ device s' = device s
  /\ (forall start0 end1,
        drawWallMode s = true -> tempWallStart s = Some (start0, end1) ->
        drawWallMode s' = false /\ tempWallStart s' = None
        /\ ((distance start0 end0 >? dec 10 0) = true ->
            walls s'
            = walls s ++ [ {| wall_id := newId; start := start0; end_ := end0;
                              material := drywall;
                              attenuation := dec 3 0; color := 0xcccccc |} ])
        /\ ((distance start0 end0 >? dec 10 0) = false ->
            walls s' = walls s))
  /\ (drawWallMode s = false \/ tempWallStart s = None ->
      walls s' = walls s /\ drawWallMode s' = drawWallMode s
      /\ tempWallStart s' = tempWallStart s).
Proof.
  intros s'. subst s'. unfold handleMouseUp.
  destruct (drawWallMode s) eqn:Hd,
    (tempWallStart s) as [[start1 end2]|] eqn:Ht; cbn [dragging radios device
      walls drawWallMode tempWallStart];
    (split; [reflexivity|]); (split; [reflexivity|]);
    (split; [reflexivity|]); split;
    try (intros start0 end1 Hm Hs; try discriminate);
    try (intros [Hm|Hs]; try discriminate; auto).
  injection Hs as <- <-.
  split; [reflexivity|]. split; [reflexivity|].
  split; intros E; rewrite E; reflexivity.
Qed.

End MouseFacts.

(** ** Exact arithmetic: distances estimated from signal strengths *)

Section ExactEstimateFacts.

Local Open Scope R_scope.

Lemma exact_estimateDistance (cfg : Config R) (v : R) :
  estimateDistanceFromRSSI cfg v
  = exp ((txPower cfg - v) / (10 * pathLossExponent cfg) * ln 10).
Proof.
  unfold estimateDistanceFromRSSI. rewrite !exact_integer. reflexivity.
Qed.

Lemma exact_estimateDistance_decreasing (cfg : Config R) (v v' : R) :
  0 < pathLossExponent cfg -> v <= v' ->
  estimateDistanceFromRSSI cfg v' <= estimateDistanceFromRSSI cfg v.
Proof.
  intros Hn Hv. rewrite !exact_estimateDistance.
  pose proof ln_10_pos as H10.
  assert (Hinv : 0 < / (10 * pathLossExponent cfg))
    by (apply Rinv_0_lt_compat; lra).
  destruct Hv as [Hv| ->]; [|lra].
  left. apply exp_increasing. unfold Rdiv.
  apply Rmult_lt_compat_r; [exact H10|].
  apply Rmult_lt_compat_r; [exact Hinv|]. lra.
Qed.

(** X7: in exact arithmetic, with a positive path-loss exponent, the estimated
    distance is positive, it is 1 m at the reference strength [txPower], and
    a strictly stronger signal gives a strictly smaller distance. *)
Theorem estimateDistance_decreasing (cfg : Config R) (v v' : R) :
  0 < pathLossExponent cfg ->
  0 < estimateDistanceFromRSSI cfg v
  /\ estimateDistanceFromRSSI cfg (txPower cfg) = 1
  /\ (v < v' ->
      estimateDistanceFromRSSI cfg v' < estimateDistanceFromRSSI cfg v).
Proof.
  intros Hn. rewrite !exact_estimateDistance.
  pose proof ln_10_pos as H10.
  split; [apply exp_pos|]. split.
  - replace ((txPower cfg - txPower cfg) / (10 * pathLossExponent cfg) * ln 10)
      with 0 by (field; lra).
    apply exp_0.
  - intros Hv. apply exp_increasing. unfold Rdiv.
    apply Rmult_lt_compat_r; [exact H10|].
    apply Rmult_lt_compat_r; [apply Rinv_0_lt_compat; lra|]. lra.
Qed.

Lemma estimateDistance_decreasing_witness :
  0 < estimateDistanceFromRSSI exactConfig (-77)
  /\ estimateDistanceFromRSSI exactConfig (txPower exactConfig) = 1
  /\ (-77 < -60 ->
      estimateDistanceFromRSSI exactConfig (-60)
      < estimateDistanceFromRSSI exactConfig (-77)).
Proof.
  apply (estimateDistance_decreasing exactConfig (-77) (-60)).
  simpl. lra.
Defined.

(** X8: in exact arithmetic, with a positive path-loss exponent and, when
    the noise is enabled, a first noise sample strictly between 0 and 1, the
    distance estimated from any synthesized signal strength lies between the
    distances of the two clamp bounds, -30 and -120 dBm.  The sample 0, where
    the program computes [Math.log(0)] and returns [NaN], is left out: the
    logarithm of the reals has a value there that the program does not
    have. *)
Theorem estimated_distance_of_measurement_bounded (cfg : Config R)
  (walls0 : list (Wall R)) (u1 u2 : R) (device0 : Device R) (radio0 : Radio R) :
  0 < pathLossExponent cfg ->
  (enableNoise cfg = true -> 0 < u1 < 1) ->
  let m := newMeasurement cfg walls0 u1 u2 device0 radio0 in
  estimateDistanceFromRSSI cfg (-30) <= estimatedDistance m
  <= estimateDistanceFromRSSI cfg (-120).
Proof.
  intros Hn _ m. subst m. cbn [estimatedDistance newMeasurement].
  match goal with |- context [calculateRSSI ?c ?w ?a ?b ?d ?t ?r] =>
    pose proof (calculateRSSI_exact_range c w a b d t r) as [Hlo Hhi];
    set (v := calculateRSSI c w a b d t r) in * end.
  split; apply exact_estimateDistance_decreasing; assumption.
Qed.

Lemma estimated_distance_of_measurement_bounded_witness :
  let cfg : Config R :=
    {| txPower := -59; pathLossExponent := 27 / 10; enableNoise := true;
       noiseStdDev := 2; enableWalls := false; enableAngleEffect := true;
       enableCumulativeEffect := true |} in
  estimateDistanceFromRSSI cfg (-30)
  <= estimatedDistance
       (newMeasurement cfg [] (1 / 2) (1 / 4) (exactDevice 250 50) exactRadio)
  <= estimateDistanceFromRSSI cfg (-120).
Proof.
  intros cfg.
  apply (estimated_distance_of_measurement_bounded cfg [] (1 / 2) (1 / 4)
           (exactDevice 250 50) exactRadio).
  - simpl. lra.
  - intros _. lra.
Defined.

End ExactEstimateFacts.

(** ** Exact arithmetic: the effect of the walls *)

Section ExactWallFacts.

Local Open Scope R_scope.

(** A configuration with the wall attenuation switched. *)
Definition withWalls (b : bool) (cfg : Config R) : Config R :=
  {| txPower := txPower cfg; pathLossExponent := pathLossExponent cfg;
     enableNoise := enableNoise cfg; noiseStdDev := noiseStdDev cfg;
     enableWalls := b; enableAngleEffect := enableAngleEffect cfg;
     enableCumulativeEffect := enableCumulativeEffect cfg |}.

Lemma exact_angleFactor_half (w : Wall R) (transmitter receiver : Vector2D R) :
  1 / 2 <= angleFactor w transmitter receiver.
Proof.
  rewrite exact_angleFactor. cbv zeta.
  match goal with |- context [Rabs ?v] => pose proof (Rabs_pos v) end. lra.
Qed.

Lemma exact_wallLoss_nonneg (cfg : Config R) (transmitter receiver : Vector2D R)
  (i : Intersection R) (k : nat) :
  0 <= attenuation (wall i) -> 0 <= wallLoss cfg transmitter receiver i k.
Proof.
  intros Ha. unfold wallLoss.
  pose proof (exact_angleFactor_half (wall i) transmitter receiver) as Hf.
  assert (Hp : 0 < Math_pow (dec 11 1) (ofIndex k))
    by (simpl; unfold Rpower; apply exp_pos).
  assert (H1 : 0 <= (if enableAngleEffect cfg
                     then (attenuation (wall i)
                           * angleFactor (wall i) transmitter receiver)%num
                     else attenuation (wall i))).
  { destruct (enableAngleEffect cfg); [|exact Ha].
    cbn [num_mul Exact.arith]. apply Rmult_le_pos; lra. }
  cbv zeta. destruct (enableCumulativeEffect cfg && (0 <? k)%nat); [|exact H1].
  cbn [num_mul Exact.arith]. apply Rmult_le_pos; [exact H1|lra].
Qed.

Lemma exact_attenuate_grows (cfg : Config R) (transmitter receiver : Vector2D R)
  (l : list (Intersection R)) :
  Forall (fun i => 0 <= attenuation (wall i)) l ->
  forall k total, total <= attenuate cfg transmitter receiver l k total.
Proof.
  induction 1 as [|i l Hi Hl IH]; intros k total; simpl; [lra|].
  pose proof (exact_wallLoss_nonneg cfg transmitter receiver i k Hi).
  eapply Rle_trans; [|apply IH]. lra.
Qed.

Lemma findWallIntersections_In {num : Type} {A : Arith num}
  (p1 p2 : Vector2D num) (ws : list (Wall num)) (i : Intersection num) :
  In i (findWallIntersections p1 p2 ws) -> In (wall i) ws.
Proof.
  intros Hi. apply (in_map wall) in Hi.
  rewrite findWallIntersections_walls in Hi.
  now apply filter_In in Hi.
Qed.

Lemma exact_clamp_monotone (v v' lo hi : R) :
  v <= v' -> clamp v lo hi <= clamp v' lo hi.
Proof.
  intros H. unfold clamp. simpl. unfold Rmin, Rmax.
  destruct (Rle_dec v lo), (Rle_dec v' lo);
    repeat match goal with |- context [Rle_dec ?a ?b] =>
      destruct (Rle_dec a b) end; lra.
Qed.

(** X9: in exact arithmetic, with attenuation coefficients that are not
    negative, enabling the wall attenuation never raises the synthesized
    signal strength, for the same scene and the same noise samples; so, with
    a positive path-loss exponent, it never lowers the estimated distance. *)
Theorem walls_never_strengthen (cfg : Config R) (walls0 : list (Wall R))
  (u1 u2 d : R) (transmitter : Radio R) (receiver : Device R) :
  Forall (fun w => 0 <= attenuation w) walls0 ->
  calculateRSSI (withWalls true cfg) walls0 u1 u2 d transmitter receiver
  <= calculateRSSI (withWalls false cfg) walls0 u1 u2 d transmitter receiver
  /\ (0 < pathLossExponent cfg ->
      estimateDistanceFromRSSI cfg
        (calculateRSSI (withWalls false cfg) walls0 u1 u2 d transmitter receiver)
      <= estimateDistanceFromRSSI cfg
           (calculateRSSI (withWalls true cfg) walls0 u1 u2 d transmitter
              receiver)).
Proof.
  intros Hw.
  assert (Hle :
    calculateRSSI (withWalls true cfg) walls0 u1 u2 d transmitter receiver
    <= calculateRSSI (withWalls false cfg) walls0 u1 u2 d transmitter receiver).
  { unfold calculateRSSI. cbn [withWalls enableWalls enableNoise txPower
                               pathLossExponent noiseStdDev].
    destruct (d <=? dec 0 0)%num; [lra|]. cbv zeta.
    assert (Hin : Forall (fun i => 0 <= attenuation (wall i))
                    (findWallIntersections transmitter receiver walls0)).
    { apply Forall_forall. intros i Hi.
      apply findWallIntersections_In in Hi.
      rewrite Forall_forall in Hw. now apply Hw. }
    pose proof (exact_attenuate_grows (withWalls true cfg) transmitter receiver
                  _ Hin 0%nat (dec 0 0)) as Hatt.
    set (att := attenuate (withWalls true cfg) transmitter receiver
                  (findWallIntersections transmitter receiver walls0) 0
                  (dec 0 0)) in *.
    rewrite exact_integer in Hatt.
    apply exact_clamp_monotone.
    destruct (enableNoise cfg); cbn [num_add num_sub Exact.arith]; lra. }
  split; [exact Hle|].
  intros Hn. now apply exact_estimateDistance_decreasing.
Qed.

Lemma walls_never_strengthen_witness :
  let w := {| wall_id := "w"; start := {| x := 150; y := 0 |};
              end_ := {| x := 150; y := 100 |}; material := concrete;
              attenuation := 10; color := 0x888888 |} in
  calculateRSSI (withWalls true exactConfig) [w] 0 0 5 exactRadio
    (exactDevice 250 50)
  <= calculateRSSI (withWalls false exactConfig) [w] 0 0 5 exactRadio
       (exactDevice 250 50).
Proof.
  intros w.
  apply (walls_never_strengthen exactConfig [w] 0 0 5 exactRadio
           (exactDevice 250 50)).
  constructor; [simpl; lra|constructor].
Defined.

End ExactWallFacts.

(** ** Exact arithmetic: distances and the solver *)

Section ExactSolverFacts.

Local Open Scope R_scope.

Lemma exact_distance (p q : Vector2D R) :
  distance p q
  = sqrt ((x p - x q) * (x p - x q) + (y p - y q) * (y p - y q)).
Proof. reflexivity. Qed.

Lemma sum_squares_nonneg (a b : R) : 0 <= a * a + b * b.
Proof. nra. Qed.

Lemma exact_distance_square (p q : Vector2D R) :
  distance p q * distance p q
  = (x p - x q) * (x p - x q) + (y p - y q) * (y p - y q).
Proof.
  rewrite exact_distance. apply sqrt_sqrt, sum_squares_nonneg.
Qed.

(** X12: in exact arithmetic [distance] is symmetric and never negative, it is 0
    exactly between a point and itself, and its square is the sum of the
    squares of the coordinate differences. *)
Theorem distance_is_euclidean (p q : Vector2D R) :
  distance p q = distance q p
  /\ 0 <= distance p q
  /\ (distance p q = 0 <-> p = q)
  /\ distance p q * distance p q
     = (x p - x q) * (x p - x q) + (y p - y q) * (y p - y q).
Proof.
  rewrite !exact_distance.
  pose proof (sum_squares_nonneg (x p - x q) (y p - y q)) as H.
  split; [f_equal; ring|]. split; [apply sqrt_pos|]. split.
  - split.
    + intros Hz. apply sqrt_eq_0 in Hz; [|exact H].
      change ((x p - x q)² + (y p - y q)² = 0) in Hz.
      apply Rplus_sqr_eq_0 in Hz.
      assert (x p = x q /\ y p = y q) as [Hx Hy] by (split; lra).
      destruct p, q. simpl in *. now subst.
    + intros ->. replace ((x q - x q) * (x q - x q) + (y q - y q) * (y q - y q))
        with 0 by ring. apply sqrt_0.
  - now apply sqrt_sqrt.
Qed.

(** X13: in exact arithmetic [canvasToThree] keeps distances: the distance
    between two points of the scene is their distance on the canvas (so a
    ring of radius [r] around a radio is drawn with radius [r]); and it maps
    the centre of the canvas to the origin. *)
Theorem canvasToThree_isometry (p q : Vector2D R) :
  distance (canvasToThree p) (canvasToThree q) = distance p q
  /\ canvasToThree {| x := 600; y := 450 |} = {| x := 0; y := 0 |}.
Proof.
  split.
  - rewrite !exact_distance. unfold canvasToThree. simpl. f_equal. field.
  - unfold canvasToThree. simpl. f_equal; field.
Qed.

(** X14: each usable row of [J] is a unit vector, in exact arithmetic. *)
Theorem gradient_rows_are_unit (pos : Vector2D R) (ms : list (Measurement R)) :
  Forall (fun row => fst row * fst row + snd row * snd row = 1)
    (fst (residuals pos ms)).
Proof.
  induction ms as [|m ms IH]; [constructor|].
  rewrite residuals_cons. unfold usable.
  set (q := {| x := x (radio m); y := y (radio m) |}).
  destruct (distance pos q <? dec 1 6)%num eqn:E; cbn [negb fst]; [exact IH|].
  constructor; [|exact IH]. cbn [fst snd num_div num_sub Exact.arith].
  assert (Hd : 0 < distance pos q).
  { destruct (Rlt_le_dec (distance pos q) (dec 1 6)) as [Hlt|Hge].
    - apply exact_lt in Hlt. congruence.
    - assert (0 < dec 1 6) by (rewrite exact_dec; simpl; lra). lra. }
  pose proof (exact_distance_square pos q) as Hsq.
  cbn [x y q] in Hsq.
  set (dd := distance pos q) in *.
  replace ((x pos - x (radio m)) / dd * ((x pos - x (radio m)) / dd)
           + (y pos - y (radio m)) / dd * ((y pos - y (radio m)) / dd))
    with (((x pos - x (radio m)) * (x pos - x (radio m))
           + (y pos - y (radio m)) * (y pos - y (radio m))) / (dd * dd))
    by (field; lra).
  rewrite <- Hsq. field. lra.
Qed.

Lemma exact_Jtr_zero (J : list (R * R)) (r : list R) :
  Forall (fun v => v = 0) r ->
  forall acc : R * R,
    fold_left
      (fun (acc : R * R) (jr : (R * R) * R) =>
         (fst acc + fst (fst jr) * snd jr, snd acc + snd (fst jr) * snd jr))
      (combine J r) acc = acc.
Proof.
  intros Hr. revert r Hr.
  induction J as [|j J IH]; intros r Hr acc; [reflexivity|].
  destruct r as [|v r]; [reflexivity|].
  inversion Hr as [|? ? Hv Hr']; subst. simpl.
  rewrite IH by assumption. destruct acc. simpl. f_equal; ring.
Qed.

(** X15: an exact solution is a fixed point of the solver, in exact arithmetic:
    if the distance from an estimate to every radio is the estimated distance
    of that radio (in pixels), then the loop started at that estimate returns
    it, whatever the number of turns left. *)
Theorem exact_solution_is_fixed (n : nat) (ms : list (Measurement R))
  (pos : Vector2D R) :
  Forall (fun m => distance pos {| x := x (radio m); y := y (radio m) |}
                   = estimatedDistance m * 40) ms ->
  iterate n ms pos = pos.
Proof.
  intros Hsol. destruct n as [|n]; [reflexivity|]. simpl.
  assert (Hr : Forall (fun v => v = 0) (snd (residuals pos ms))).
  { rewrite (proj1 (proj2 (proj2 (residuals_shape pos ms)))).
    apply Forall_map. apply Forall_forall. intros m Hm.
    apply filter_In in Hm. destruct Hm as [Hm _].
    rewrite Forall_forall in Hsol. rewrite (Hsol m Hm).
    unfold PIXELS_PER_METER. rewrite exact_integer. simpl. ring. }
  unfold gaussNewtonStep.
  destruct (residuals pos ms) as [J r]. cbn [snd] in Hr.
  destruct (List.length J <? 2)%nat; [reflexivity|].
  destruct (Math_abs (determinant J) <? dec 1 9)%num; [reflexivity|].
  assert (Hdelta : gaussNewtonDelta J r = (0, 0)).
  { unfold gaussNewtonDelta.
    destruct (normalMatrix J) as [[[a b] c] e]. cbv zeta.
    rewrite !exact_integer. rewrite (exact_Jtr_zero J r Hr).
    simpl. f_equal; ring. }
  rewrite Hdelta. cbv zeta. unfold stepNorm, square, convergenceThreshold.
  cbn [fst snd].
  assert (Hn : (Math_sqrt (0 * 0 + 0 * 0) <? dec 1 1)%num = true).
  { apply exact_lt. simpl. replace (0 * 0 + 0 * 0) with 0 by ring.
    rewrite sqrt_0. lra. }
  simpl in Hn. simpl. rewrite Hn. destruct pos. simpl. f_equal; ring.
Qed.

Lemma exact_solution_is_fixed_witness :
  let at_radio (a b : R) : Measurement R :=
    {| radio := {| radio_position := {| x := a; y := b |}; id := "R";
                   radio_radius := 10; label := "R" |};
       trueDistance := 1; rssi := -59; estimatedDistance := 1 |} in
  let ms := [at_radio 40 0; at_radio 0 40; at_radio (-40) 0] in
  iterate maxIterations ms {| x := 0; y := 0 |} = {| x := 0; y := 0 |}.
Proof.
  intros at_radio ms.
  apply (exact_solution_is_fixed maxIterations ms {| x := 0; y := 0 |}).
  assert (H40 : sqrt (40 * 40) = 1 * 40)
    by (rewrite sqrt_square; lra).
  repeat constructor; rewrite exact_distance; cbn [x y radio at_radio
    radio_position estimatedDistance]; rewrite <- H40; f_equal; ring.
Defined.

End ExactSolverFacts.

(** ** Exact arithmetic: the initial guess *)

Section ExactGuessFacts.

Local Open Scope R_scope.

(** One step of the [reduce] of the initial guess. *)
Definition weighStep (st : Vector2D R * R) (m : Measurement R)
  : Vector2D R * R :=
  let (acc, totalWeight) := st in
  ({| x := x acc + x (radio m) * (1 / estimatedDistance m);
      y := y acc + y (radio m) * (1 / estimatedDistance m) |},
   totalWeight + 1 / estimatedDistance m).

Lemma exact_weightedSum (ms : list (Measurement R)) :
  weightedSum ms = fold_left weighStep ms ({| x := 0; y := 0 |}, 0).
Proof.
  unfold weightedSum. rewrite !(exact_integer 0).
  apply fold_left_ext_in. intros m [acc w] _. unfold weighStep.
  rewrite (exact_integer 1). reflexivity.
Qed.

Lemma weighStep_invariant (lox hix loy hiy : R) (ms : list (Measurement R)) :
  Forall (fun m => 0 < estimatedDistance m
                   /\ lox <= x (radio m) <= hix
                   /\ loy <= y (radio m) <= hiy) ms ->
  forall (acc : Vector2D R) (w : R),
    0 <= w ->
    lox * w <= x acc <= hix * w ->
    loy * w <= y acc <= hiy * w ->
    let st' := fold_left weighStep ms (acc, w) in
    w <= snd st'
    /\ lox * snd st' <= x (fst st') <= hix * snd st'
    /\ loy * snd st' <= y (fst st') <= hiy * snd st'.
Proof.
  induction 1 as [|m ms (Hd & Hx & Hy) Hms IH]; intros acc w Hw Hax Hay.
  - simpl. repeat split; lra.
  - cbn [fold_left weighStep].
    assert (Hwt : 0 < 1 / estimatedDistance m)
      by (apply Rdiv_lt_0_compat; lra).
    set (wt := 1 / estimatedDistance m) in *.
    destruct (IH {| x := x acc + x (radio m) * wt;
                    y := y acc + y (radio m) * wt |} (w + wt))
      as (H0 & H1 & H2); cbn [x y]; try nra.
    all: cbv zeta; repeat split; lra.
Qed.

(** X16: in exact arithmetic, for at least one measurement and positive
    estimated distances, the initial guess of the solver lies in the bounding
    box of the radios: between the least and the greatest [x] of the radios,
    and between the least and the greatest [y]. *)
Theorem initialGuess_in_bounding_box (lox hix loy hiy : R)
  (ms : list (Measurement R)) :
  ms <> [] ->
  Forall (fun m => 0 < estimatedDistance m
                   /\ lox <= x (radio m) <= hix
                   /\ loy <= y (radio m) <= hiy) ms ->
  lox <= x (initialGuess ms) <= hix /\ loy <= y (initialGuess ms) <= hiy.
Proof.
  intros Hne Hms. unfold initialGuess. rewrite exact_weightedSum.
  destruct ms as [|m ms]; [now elim Hne|].
  inversion Hms as [|? ? (Hd & Hx & Hy) Hms']; subst.
  cbn [fold_left weighStep].
  assert (Hwt : 0 < 1 / estimatedDistance m)
    by (apply Rdiv_lt_0_compat; lra).
  set (wt := 1 / estimatedDistance m) in *.
  destruct (weighStep_invariant lox hix loy hiy ms Hms'
              {| x := 0 + x (radio m) * wt; y := 0 + y (radio m) * wt |}
              (0 + wt)) as (Hp & Hbx & Hby); cbn [x y]; try nra.
  destruct (fold_left weighStep ms _) as [acc w].
  cbn [fst snd] in *.
  assert (Hw : 0 < w) by lra.
  unfold Rdiv.
  assert (Hl : forall a b, a * w <= b -> a <= b * / w).
  { intros a b Hab. apply (Rmult_le_reg_r w); [exact Hw|].
    rewrite Rmult_assoc, Rinv_l by lra. lra. }
  assert (Hu : forall a b, b <= a * w -> b * / w <= a).
  { intros a b Hab. apply (Rmult_le_reg_r w); [exact Hw|].
    rewrite Rmult_assoc, Rinv_l by lra. lra. }
  repeat split; (apply Hl || apply Hu); lra.
Qed.

Lemma initialGuess_in_bounding_box_witness :
  let at_radio (a b d : R) : Measurement R :=
    {| radio := {| radio_position := {| x := a; y := b |}; id := "R";
                   radio_radius := 10; label := "R" |};
       trueDistance := d; rssi := -59; estimatedDistance := d |} in
  let ms := [at_radio 600 50 3; at_radio 50 850 7; at_radio 1150 850 2] in
  50 <= x (initialGuess ms) <= 1150 /\ 50 <= y (initialGuess ms) <= 850.
Proof.
  intros at_radio ms.
  apply (initialGuess_in_bounding_box 50 1150 50 850 ms).
  - discriminate.
  - repeat constructor; simpl; lra.
Defined.

End ExactGuessFacts.

(** ** Exact arithmetic: placement and dragging *)

Section ExactPlacementFacts.

Local Open Scope R_scope.

(** X17: in exact arithmetic [initializeRadios] places exactly [count] radios,
    each of radius 10 and at least 50 pixels inside every border of the
    1200 by 900 canvas, whatever the count. *)
Theorem initializeRadios_inside_canvas (generateId : nat -> string)
  (count : nat) :
  List.length (initializeRadios sin generateId count) = count
  /\ Forall (fun r : Radio R =>
               50 <= x r <= 1150 /\ 50 <= y r <= 850 /\ radio_radius r = 10)
       (initializeRadios sin generateId count).
Proof.
  assert (Hten : (dec 10 0 : R) = 10) by apply exact_integer.
  unfold initializeRadios, CANVAS_WIDTH, CANVAS_HEIGHT. cbv zeta.
  rewrite !exact_integer.
  destruct count as [|[|[|[|[|n]]]]].
  5:{ split; [reflexivity|].
      repeat constructor; cbn [x y radio_radius radioAt radio_position];
        simpl; lra. }
  4:{ split; [reflexivity|].
      repeat constructor; cbn [x y radio_radius radioAt radio_position];
        simpl; lra. }
  all: split; [now rewrite length_map, length_seq|];
    apply Forall_map, Forall_forall; intros i _;
    cbn [x y radio_radius radioAt radio_position];
    match goal with |- context [Math_cos ?a] =>
      pose proof (COS_bound a) as [Hc1 Hc2];
      pose proof (SIN_bound a) as [Hs1 Hs2];
      change (Math_cos a) with (cos a);
      set (c := cos a) in *; set (s := sin a) in * end;
    assert (Hr : Math_min 1200 900 / 2 - 50 = 400)
      by (simpl; unfold Rmin; destruct (Rle_dec 1200 900); lra);
    cbn [num_add num_sub num_mul num_div Exact.arith] in *; rewrite Hr;
    repeat split; try nra; exact Hten.
Qed.

(** X18: dragging the device, in exact arithmetic: pressing the mouse on the
    device at [m0] (outside the wall drawing), moving it to [m1] and
    releasing it leaves the device displaced by [m1 - m0], with its radius,
    and changes neither the radios nor the walls; the position is not clamped
    to the canvas. *)
Theorem drag_device_follows_mouse (m0 m1 m2 : Vector2D R) (newId : string)
  (s : Scene R) :
  drawWallMode s = false ->
  let s' := handleMouseUp m2 newId
              (handleMouseMove m1
                 (handleMouseDown m0 (Some (inr (device s))) s)) in
  x (device s') = x (device s) + (x m1 - x m0)
  /\ y (device s') = y (device s) + (y m1 - y m0)
  /\ device_radius (device s') = device_radius (device s)
  /\ radios s' = radios s /\ walls s' = walls s
  /\ dragging s' = None /\ drawWallMode s' = false.
Proof.
  intros Hd s'. subst s'.
  destruct s as [rs ws d dm ts dr]. cbn [drawWallMode] in Hd. subst dm.
  cbn. repeat split; try reflexivity; ring.
Qed.

Lemma drag_device_follows_mouse_witness :
  let s : Scene R :=
    {| radios := []; walls := [];
       device := {| device_position := {| x := 600; y := 450 |};
                    device_radius := 8 |};
       drawWallMode := false; tempWallStart := None; dragging := None |} in
  let s' := handleMouseUp {| x := 2000; y := 7 |} "_w"
              (handleMouseMove {| x := 2000; y := 7 |}
                 (handleMouseDown {| x := 601; y := 452 |}
                    (Some (inr (device s))) s)) in
  x (device s') = x (device s) + (2000 - 601).
Proof.
  intros s s'.
  exact (proj1 (drag_device_follows_mouse {| x := 601; y := 452 |}
                  {| x := 2000; y := 7 |} {| x := 2000; y := 7 |} "_w" s
                  eq_refl)).
Defined.

(** X19: the device sliders, in exact arithmetic: whatever the value and the
    position before, the device ends inside the canvas by its radius on both
    axes (the axis that is not set is clamped too), with its radius kept;
    and a device that was inside takes the slider value, times 40, clamped,
    on the axis set and keeps the other coordinate. *)
Theorem slider_keeps_device_inside (axis : Axis) (meters : R) (d : Device R) :
  2 * device_radius d <= 900 ->
  let d' := handleDevicePosChange axis meters d in
  device_radius d' = device_radius d
  /\ device_radius d <= x d' <= 1200 - device_radius d
  /\ device_radius d <= y d' <= 900 - device_radius d
  /\ (device_radius d <= x d <= 1200 - device_radius d ->
      device_radius d <= y d <= 900 - device_radius d ->
      match axis with
      | axis_x => y d' = y d
                  /\ x d' = clamp (meters * 40) (device_radius d)
                              (1200 - device_radius d)
      | axis_y => x d' = x d
                  /\ y d' = clamp (meters * 40) (device_radius d)
                              (900 - device_radius d)
      end).
Proof.
  intros Hr d'. subst d'. unfold handleDevicePosChange, number_isNaN.
  assert (Hself : (meters === meters)%num = true).
  { simpl. unfold Exact.eqb. destruct (Req_dec_T meters meters); congruence. }
  rewrite Hself. cbn [negb]. cbv zeta.
  unfold CANVAS_WIDTH, CANVAS_HEIGHT, PIXELS_PER_METER.
  rewrite !exact_integer.
  cbn [device_radius device_position x y].
  change (num_sub ?a ?b) with (a - b).
  change (num_mul ?a ?b) with (a * b).
  split; [reflexivity|].
  split; [apply exact_clamp_range; lra|].
  split; [apply exact_clamp_range; lra|].
  intros Hx Hy.
  destruct axis; cbn [x y]; split; try reflexivity;
    now apply exact_clamp_inside.
Qed.

Lemma slider_keeps_device_inside_witness :
  let d : Device R :=
    {| device_position := {| x := 600; y := 450 |}; device_radius := 8 |} in
  let d' := handleDevicePosChange axis_x 100 d in
  device_radius d' = device_radius d
  /\ device_radius d <= x d' <= 1200 - device_radius d.
Proof.
  intros d d'.
  destruct (slider_keeps_device_inside axis_x 100 d) as (H1 & H2 & _).
  - simpl. lra.
  - split; [exact H1|exact H2].
Defined.

End ExactPlacementFacts.

(** ** Binary64: the measurements and the interaction *)

Section Binary64SceneFacts.

Local Open Scope num_scope.

(** X20: the measurements that pass the detection threshold are never [NaN]:
    in binary64, for every input and whatever the engine's approximations,
    the signal strength of each active measurement of an update is a number
    strictly above the threshold and within [-120, -30]. *)
Theorem activeMeasurements_are_numbers (E : F64.Engine) (cfg : Config float)
  (walls0 : list (Wall float)) (random : nat -> float) (k : nat)
  (minRSSI : float) (device0 : Device float) (rs : list (Radio float)) :
  Forall (fun m =>
            PrimFloat.is_nan (rssi m) = false
            /\ (rssi m >? minRSSI) = true
            /\ (- dec 120 0 <=? rssi m) = true
            /\ (rssi m <=? - dec 30 0) = true)
    (activeMeasurements minRSSI
       (fst (newMeasurements (L := F64.libm E) cfg walls0 random k device0 rs))).
Proof.
  apply Forall_forall. intros m Hm.
  unfold activeMeasurements in Hm. apply filter_In in Hm.
  destruct Hm as [Hin Hgt].
  destruct (newMeasurements_shape (L := F64.libm E) cfg walls0 random device0
              rs k) as (_ & _ & Hall & _).
  rewrite Forall_forall in Hall. destruct (Hall m Hin) as [j Hj].
  destruct (lt_true_not_nan _ _ Hgt) as [_ Hnn].
  split; [exact Hnn|]. split; [exact Hgt|].
  revert Hnn. assert (Hr : rssi m
               = calculateRSSI (L := F64.libm E) cfg walls0 (random j)
                   (random (S j)) (distance (radio m) device0 / PIXELS_PER_METER)
                   (radio m) device0)
    by (rewrite Hj at 1; reflexivity).
  pose proof (calculateRSSI_binary64_range E cfg walls0 (random j)
                (random (S j))
                (num_div (distance (radio m) device0) PIXELS_PER_METER)
                (radio m) device0) as Hrange.
  cbv zeta in Hrange. rewrite Hr. intros Hnn.
  destruct Hrange as [Hn|Hrange]; [congruence|exact Hrange].
Qed.

Lemma sub_zero_r (v : float) : (v - dec 0 0) = v.
Proof.
  rewrite float_zero. apply Prim2SF_inj. simpl. rewrite sub_spec.
  change (Prim2SF 0) with (S754_zero false).
  destruct (Prim2SF v) as [b|b| |b m e]; try reflexivity.
  now destruct b.
Qed.

(** A configuration with the wall attenuation disabled. *)
Definition withoutWalls (cfg : Config float) : Config float :=
  {| txPower := txPower cfg; pathLossExponent := pathLossExponent cfg;
     enableNoise := enableNoise cfg; noiseStdDev := noiseStdDev cfg;
     enableWalls := false; enableAngleEffect := enableAngleEffect cfg;
     enableCumulativeEffect := enableCumulativeEffect cfg |}.

(** X21: when the path crosses no wall (in particular with no wall at all), the
    wall attenuation changes nothing: in binary64, for all inputs,
    [calculateRSSI] returns the very number it returns with the wall
    attenuation disabled. *)
Theorem no_crossing_is_free_space (E : F64.Engine) (cfg : Config float)
  (walls0 : list (Wall float)) (u1 u2 d : float)
  (transmitter : Radio float) (receiver : Device float) :
  findWallIntersections transmitter receiver walls0 = [] ->
  calculateRSSI (L := F64.libm E) cfg walls0 u1 u2 d transmitter receiver
  = calculateRSSI (L := F64.libm E) (withoutWalls cfg) walls0 u1 u2 d
      transmitter receiver.
Proof.
  intros Hnone. unfold calculateRSSI. rewrite Hnone.
  cbn [withoutWalls enableWalls enableNoise txPower pathLossExponent
       noiseStdDev attenuate].
  destruct (enableWalls cfg); [|reflexivity].
  now rewrite sub_zero_r.
Qed.

Lemma no_crossing_is_free_space_witness :
  calculateRSSI (L := F64.libm sampleEngine) Scenario.defaultConfig
    Scenario.defaultWalls (dec 0 0) (dec 0 0) (dec 1 0)
    (Scenario.beacon "R1" (dec 50 0) (dec 50 0))
    (Scenario.phone (dec 90 0) (dec 50 0))
  = calculateRSSI (L := F64.libm sampleEngine)
      (withoutWalls Scenario.defaultConfig)
      Scenario.defaultWalls (dec 0 0) (dec 0 0) (dec 1 0)
      (Scenario.beacon "R1" (dec 50 0) (dec 50 0))
      (Scenario.phone (dec 90 0) (dec 50 0)).
Proof.
  apply no_crossing_is_free_space. vm_compute. reflexivity.
Defined.

Lemma is_finite_cases (v : float) :
  PrimFloat.is_finite v = true ->
  match Prim2SF v with
  | S754_zero _ | S754_finite _ _ _ => True
  | _ => False
  end.
Proof.
  unfold PrimFloat.is_finite, PrimFloat.is_nan, PrimFloat.is_infinity.
  rewrite !eqb_spec, abs_spec.
  change (Prim2SF infinity) with (S754_infinity false).
  destruct (Prim2SF v) as [b|b| |b m e]; simpl; auto;
    [destruct b|]; vm_compute; discriminate.
Qed.

Lemma sub_diag_finite (v : float) :
  PrimFloat.is_finite v = true -> (v - v) = dec 0 0.
Proof.
  intros H. apply is_finite_cases in H. rewrite float_zero.
  apply Prim2SF_inj. simpl. rewrite sub_spec.
  change (Prim2SF 0) with (S754_zero false).
  destruct (Prim2SF v) as [b|b| |b m e]; try contradiction;
    unfold SF64sub, SFsub.
  - now destruct b.
  - cbv zeta. now rewrite Z.sub_diag.
Qed.

(** X22: a device exactly on a radio: in binary64, for finite coordinates, the
    true distance of the measurement is 0 and its signal strength is the
    fixed value -30, whatever the parameters, the walls and the random
    samples. *)
Theorem measurement_on_the_radio (E : F64.Engine) (cfg : Config float)
  (walls0 : list (Wall float)) (u1 u2 : float)
  (device0 : Device float) (radio0 : Radio float) :
  x device0 = x radio0 -> y device0 = y radio0 ->
  PrimFloat.is_finite (x radio0) = true ->
  PrimFloat.is_finite (y radio0) = true ->
  let m := newMeasurement (L := F64.libm E) cfg walls0 u1 u2 device0 radio0 in
  trueDistance m = dec 0 0 /\ rssi m = - dec 30 0.
Proof.
  intros Hx Hy Hfx Hfy m.
  assert (Hd : trueDistance m = dec 0 0).
  { subst m. cbn [trueDistance newMeasurement]. unfold distance, square.
    rewrite Hx, Hy, !sub_diag_finite by assumption.
    vm_compute. reflexivity. }
  split; [exact Hd|].
  subst m. cbn [trueDistance rssi newMeasurement] in *.
  unfold calculateRSSI. rewrite Hd. reflexivity.
Qed.

Lemma measurement_on_the_radio_witness :
  let m := newMeasurement (L := F64.libm sampleEngine) Scenario.defaultConfig
             Scenario.defaultWalls (dec 0 0) (dec 0 0)
             (Scenario.phone (dec 50 0) (dec 50 0))
             (Scenario.beacon "R1" (dec 50 0) (dec 50 0)) in
  trueDistance m = dec 0 0 /\ rssi m = - dec 30 0.
Proof.
  apply measurement_on_the_radio; reflexivity.
Defined.

Lemma distance_self (p : Vector2D float) :
  (distance p p >? dec 10 0) = false.
Proof.
  assert (Hz : zeroOrNaN (distance p p)).
  { unfold distance, square. apply sqrt_zeroOrNaN, add_zeroOrNaN;
      apply mul_zeroOrNaN_l, sub_diag_zeroOrNaN. }
  assert (Hten : (dec 10 0 : float) = 10%float) by (vm_compute; reflexivity).
  unfold zeroOrNaN in Hz. rewrite Hten.
  set (dd := distance p p) in *. simpl. rewrite ltb_spec.
  change (Prim2SF 10) with (S754_finite false 5629499534213120 (-49)).
  destruct (Prim2SF dd) as [b|b| |b m e]; try contradiction; reflexivity.
Qed.

(** X23: a click without movement in the wall drawing adds no wall: in binary64,
    for every position (NaN coordinates included), pressing and releasing the
    mouse at the same place, with no wall begun, leaves the walls, the radios
    and the device as they were and ends the wall drawing. *)
Theorem click_draws_no_wall (p : Vector2D float)
  (hit : option (Radio float + Device float)) (newId : string)
  (s : Scene float) :
  drawWallMode s = true -> tempWallStart s = None ->
  let s' := handleMouseUp p newId (handleMouseDown p hit s) in
  walls s' = walls s /\ radios s' = radios s /\ device s' = device s
  /\ drawWallMode s' = false /\ tempWallStart s' = None
  /\ dragging s' = None.
Proof.
  intros Hd Ht s'. subst s'.
  destruct s as [rs ws d dm ts dr]. cbn [drawWallMode tempWallStart] in Hd, Ht.
  subst dm ts.
  unfold handleMouseDown, handleMouseUp.
  cbn [drawWallMode tempWallStart walls radios device dragging].
  rewrite distance_self. repeat split.
Qed.

Lemma click_draws_no_wall_witness :
  let s : Scene float :=
    {| radios := []; walls := Scenario.defaultWalls;
       device := Scenario.phone (dec 600 0) (dec 450 0);
       drawWallMode := true; tempWallStart := None; dragging := None |} in
  walls (handleMouseUp (Scenario.at_ (dec 100 0) (dec 100 0)) "_w"
           (handleMouseDown (Scenario.at_ (dec 100 0) (dec 100 0)) None s))
  = walls s.
Proof.
  intros s.
  exact (proj1 (click_draws_no_wall (Scenario.at_ (dec 100 0) (dec 100 0))
                  None "_w" s eq_refl eq_refl)).
Defined.

End Binary64SceneFacts.
